(** * openrank: repository association graphs

    A shallow embedding of the graph-construction core of the repository
    (src/github_graph_visualization.py, class GitHubGraphVisualizer) and of
    the activity score (src/github_utils.py, calculate_activity_score),
    followed by the properties established about them. The embedding also
    covers the style data [_plot_graph] reads off a graph, the retry
    decorator of src/github_utils.py, the paging and the activity record of
    src/github_crawler.py, and src/optimize_cache.py.

    Conventions of the embedding:
    - a Python [dict] whose iteration order is observed (the topic index) is
      an association list in insertion order; a [dict] only queried by key
      (the repository map, the node table of a graph) is a [gmap];
    - a Python [set] is a [gset]; the iteration order of a [set] of strings
      is not fixed by the language, so the traversal is parametrised by the
      order in which each frontier is enumerated;
    - exceptions are values of [exn], carried by the [Result] monad;
    - a networkx [Graph] is a node table plus the list of its edges, with
      [add_node] and [add_edge] behaving as in networkx (an edge creates its
      missing endpoints, re-adding an edge updates it in place);
    - Python floats are exact rationals ([Q]). *)

From Stdlib Require Import QArith Qround Qminmax.
From Stdlib Require Import DecimalString DecimalNat Ascii.
From stdpp Require Import base gmap sets list strings.

(** ** Exceptions *)

Inductive exn :=
| ValueError (msg : string)
| KeyError (key : string).

Inductive Result (A : Type) :=
| Raise (e : exn)
| Return (a : A).
Arguments Raise {A} e.
Arguments Return {A} a.

Global Instance Result_ret : MRet Result := @Return.
Global Instance Result_bind : MBind Result :=
  fun A B f m => match m with Raise e => Raise e | Return a => f a end.

Fixpoint foldlM {A S : Type} (f : S → A → Result S) (s : S) (l : list A) : Result S :=
  match l with
  | [] => mret s
  | a :: l' => s' ← f s a; foldlM f s' l'
  end.

(** ** Repository records

    One element of the JSON array read by [__init__]; only the keys the
    graph code reads are kept. [language] is [None] for a JSON null. *)

Record Repo := {
  full_name : string;
  topics : list string;
  activity_score : Q;
  star_count : Z;
  language : option string;
}.

(** [repo["language"] or "Unknown"]: null and the empty string are falsy. *)
Definition lang_or_unknown (l : option string) : string :=
  match l with
  | Some s => if decide (s = "") then "Unknown" else s
  | None => "Unknown"
  end.

(** ** The topic index: an insertion-ordered dict from topic to names *)

Fixpoint dict_append (topic name : string) (m : list (string * list string))
  : list (string * list string) :=
  match m with
  | [] => [(topic, [name])]
  | (t, l) :: m' =>
      if decide (t = topic) then (t, l ++ [name]) :: m'
      else (t, l) :: dict_append topic name m'
  end.

(** [m.get(topic, [])] *)
Fixpoint dict_get (topic : string) (m : list (string * list string)) : list string :=
  match m with
  | [] => []
  | (t, l) :: m' => if decide (t = topic) then l else dict_get topic m'
  end.

Definition _build_topic_mapping (repo_data : list Repo) : list (string * list string) :=
  foldl (fun topic_map repo =>
           foldl (fun topic_map topic => dict_append topic (full_name repo) topic_map)
                 topic_map (topics repo))
        [] repo_data.

(** Number of occurrences of [x] in [l]. *)
Definition occurrences (x : string) (l : list string) : nat :=
  length (filter (fun y => y = x) l).

(** ** The visualizer object *)

Record GitHubGraphVisualizer := {
  repo_data : list Repo;
  repo_map : gmap string Repo;
  topic_to_repos : list (string * list string);
}.

(** [__init__] once the JSON file has been read: the dict comprehension keeps
    the last record of a name. *)
Definition __init__ (data : list Repo) : GitHubGraphVisualizer :=
  {| repo_data := data;
     repo_map := foldl (fun m repo => <[full_name repo := repo]> m) ∅ data;
     topic_to_repos := _build_topic_mapping data |}.

(** ** networkx graphs *)

Record Attrs := {
  activity : option Q;
  star : option Z;
  lang : option string;
  level : option nat;
}.

Definition no_attrs : Attrs :=
  {| activity := None; star := None; lang := None; level := None |}.

(** [d.update(new)] on attribute dicts *)
Definition attrs_update (new old : Attrs) : Attrs :=
  {| activity := if activity new is Some _ then activity new else activity old;
     star := if star new is Some _ then star new else star old;
     lang := if lang new is Some _ then lang new else lang old;
     level := if level new is Some _ then level new else level old |}.

Record Graph := {
  nodes : gmap string Attrs;
  edges : list (string * string * Z);
}.

Definition empty_graph : Graph := {| nodes := ∅; edges := [] |}.

Definition add_node (n : string) (a : Attrs) (G : Graph) : Graph :=
  {| nodes := <[n := attrs_update a (default no_attrs (nodes G !! n))]> (nodes G);
     edges := edges G |}.

Definition ensure_node (n : string) (ns : gmap string Attrs) : gmap string Attrs :=
  match ns !! n with
  | Some _ => ns
  | None => <[n := no_attrs]> ns
  end.

Definition same_edge (u v : string) (e : string * string * Z) : bool :=
  (String.eqb e.1.1 u && String.eqb e.1.2 v) || (String.eqb e.1.1 v && String.eqb e.1.2 u).

Definition add_edge (u v : string) (w : Z) (G : Graph) : Graph :=
  {| nodes := ensure_node v (ensure_node u (nodes G));
     edges := if existsb (same_edge u v) (edges G)
              then map (fun e => if same_edge u v e then (e.1.1, e.1.2, w) else e) (edges G)
              else edges G ++ [(u, v, w)] |}.

Definition has_edge (G : Graph) (u v : string) : Prop :=
  ∃ w, (u, v, w) ∈ edges G ∨ (v, u, w) ∈ edges G.

Definition has_edgeb (G : Graph) (u v : string) : bool :=
  existsb (same_edge u v) (edges G).

Definition no_self_loops (G : Graph) : Prop :=
  ∀ u v w, (u, v, w) ∈ edges G → u ≠ v.

(** Two entries of the edge list never join the same unordered pair. *)
Definition no_parallel_edges (G : Graph) : Prop :=
  ∀ i j e1 e2, edges G !! i = Some e1 → edges G !! j = Some e2 →
               same_edge e1.1.1 e1.1.2 e2 = true → i = j.

Definition endpoints_in_nodes (G : Graph) : Prop :=
  ∀ u v w, (u, v, w) ∈ edges G → is_Some (nodes G !! u) ∧ is_Some (nodes G !! v).

(** ** GraphBuilder: [_build_full_graph] *)

Definition max_edges : nat := 1000.

Record FullState := {
  fs_G : Graph;
  added_edges : gset (string * string);
  edge_count : nat;
}.

(** [tuple(sorted([r1, r2]))] *)
Definition edge_key (r1 r2 : string) : string * string :=
  if String.ltb r2 r1 then (r2, r1) else (r1, r2).

(** The unordered pairs joined by the edges of a graph, in edge order. *)
Definition edge_keys (G : Graph) : list (string * string) :=
  (fun e : string * string * Z => edge_key e.1.1 e.1.2) <$> edges G.

(** [len(set(t1) & set(t2))] *)
Definition shared_topics (t1 t2 : list string) : nat :=
  size ((list_to_set t1 : gset string) ∩ list_to_set t2).

(** [self.repo_map[name]] *)
Definition repo_lookup (self : GitHubGraphVisualizer) (name : string) : Result Repo :=
  match repo_map self !! name with
  | Some repo => Return repo
  | None => Raise (KeyError name)
  end.

(** The body of the innermost loop, after the cap test. *)
Definition try_pair (self : GitHubGraphVisualizer) (r1 r2 : string) (st : FullState)
  : Result FullState :=
  let key := edge_key r1 r2 in
  if decide (key ∈ added_edges st) then mret st
  else
    repo1 ← repo_lookup self r1;
    repo2 ← repo_lookup self r2;
    let shared := shared_topics (topics repo1) (topics repo2) in
    if decide (2 ≤ shared) then
      mret {| fs_G := add_edge r1 r2 (Z.of_nat shared) (fs_G st);
              added_edges := {[key]} ∪ added_edges st;
              edge_count := edge_count st + 1 |}
    else mret st.

(** [for j in range(i+1, len(repos))], with [r1 = repos[i]] and [rest] the
    entries after position [i]. *)
Fixpoint inner_loop (self : GitHubGraphVisualizer) (r1 : string) (rest : list string)
  (st : FullState) : Result FullState :=
  match rest with
  | [] => mret st
  | r2 :: rest' =>
      if decide (max_edges ≤ edge_count st) then mret st
      else st' ← try_pair self r1 r2 st; inner_loop self r1 rest' st'
  end.

(** [for i in range(len(repos))] *)
Fixpoint pair_loop (self : GitHubGraphVisualizer) (repos : list string) (st : FullState)
  : Result FullState :=
  match repos with
  | [] => mret st
  | r1 :: rest =>
      st' ← inner_loop self r1 rest st;
      if decide (max_edges ≤ edge_count st') then mret st'
      else pair_loop self rest st'
  end.

(** [for topic, repos in self.topic_to_repos.items()] *)
Fixpoint topic_loop (self : GitHubGraphVisualizer) (items : list (string * list string))
  (st : FullState) : Result FullState :=
  match items with
  | [] => mret st
  | (topic, repos) :: items' =>
      let repos := if decide (8 < length repos) then take 8 repos else repos in
      st' ← pair_loop self repos st;
      topic_loop self items' st'
  end.

Definition full_graph_nodes (data : list Repo) : Graph :=
  foldl (fun G repo =>
           add_node (full_name repo)
                    {| activity := Some (activity_score repo);
                       star := Some (star_count repo);
                       lang := Some (lang_or_unknown (language repo));
                       level := None |} G)
        empty_graph data.

(** The state of the builder when the loops are over. *)
Definition full_graph_state (self : GitHubGraphVisualizer) : Result FullState :=
  topic_loop self (topic_to_repos self)
             {| fs_G := full_graph_nodes (repo_data self);
                added_edges := ∅;
                edge_count := 0 |}.

Definition _build_full_graph (self : GitHubGraphVisualizer) : Result Graph :=
  st ← full_graph_state self; mret (fs_G st).

(** ** EgoNetworkBuilder: [_build_4level_graph] *)

Definition levels : nat := 4.
Definition max_nodes : nat := 150.

Record EgoState := {
  eg_G : Graph;
  visited : gset string;
  next_level : gset string;
}.

(** The body of [for rr in related_repos]. *)
Definition visit_candidate (repo_name : string) (st : EgoState) (rr : string) : EgoState :=
  if decide ((rr ∉ visited st) ∧ (size (visited st) < max_nodes)) then
    {| eg_G := add_edge repo_name rr 1 (eg_G st);
       visited := visited st;
       next_level := {[rr]} ∪ next_level st |}
  else st.

(** The body of [for topic in repo["topics"][:5]]. *)
Definition expand_topic (self : GitHubGraphVisualizer) (repo_name : string)
  (st : EgoState) (topic : string) : EgoState :=
  let related_repos := take 5 (dict_get topic (topic_to_repos self)) in
  foldl (visit_candidate repo_name) st related_repos.

(** The body of [for repo_name in current_level]. *)
Definition process_repo (self : GitHubGraphVisualizer) (lvl : nat)
  (st : EgoState) (repo_name : string) : Result EgoState :=
  if decide (repo_name ∈ visited st) then mret st
  else
    repo ← repo_lookup self repo_name;
    let st1 :=
      {| eg_G := add_node repo_name
                          {| activity := Some (activity_score repo);
                             star := Some (star_count repo);
                             lang := Some (lang_or_unknown (language repo));
                             level := Some lvl |} (eg_G st);
         visited := {[repo_name]} ∪ visited st;
         next_level := next_level st |} in
    mret (foldl (expand_topic self repo_name) st1 (take 5 (topics repo))).

Section EgoNetworkBuilder.

(** The order in which [for repo_name in current_level] enumerates the
    frontier of a round. *)
Variable set_order : nat → gset string → list string.

(** [for level in range(levels + 1)], over the rounds still to run. *)
Fixpoint level_loop (self : GitHubGraphVisualizer) (rounds : list nat)
  (G : Graph) (seen : gset string) (current_level : gset string)
  : Result (Graph * gset string) :=
  match rounds with
  | [] => mret (G, seen)
  | lvl :: rounds' =>
      if decide (current_level = ∅ ∨ max_nodes ≤ size seen) then mret (G, seen)
      else
        st ← foldlM (process_repo self lvl)
                    {| eg_G := G; visited := seen; next_level := ∅ |}
                    (set_order lvl current_level);
        level_loop self rounds' (eg_G st) (visited st) (next_level st)
  end.

(** The graph and the visited set when the rounds are over. *)
Definition ego_traversal (self : GitHubGraphVisualizer) (start_repo : string)
  : Result (Graph * gset string) :=
  level_loop self (seq 0 (levels + 1)) empty_graph ∅ {[start_repo]}.

(** The method returns the object it was called on next to its result, so
    that what it does to the object can be stated. *)
Definition _build_4level_graph (start_repo : string) (self : GitHubGraphVisualizer)
  : GitHubGraphVisualizer * Result Graph :=
  match repo_map self !! start_repo with
  | None => (self, Raise (ValueError ("仓库 " +:+ start_repo +:+ " 不存在！")))
  | Some _ => (self, (r ← ego_traversal self start_repo; mret (r.1)))
  end.

End EgoNetworkBuilder.

(** The enumeration order used when a traversal is run on a concrete input. *)
Definition elements_order (lvl : nat) (X : gset string) : list string := elements X.

(** ** ActivityScorer: [calculate_activity_score] *)

Module ActivityScorer.







End ActivityScorer.

(** ** Inputs used in the examples *)

Definition mk_repo (name : string) (ts : list string) : Repo :=
  {| full_name := name; topics := ts;
     activity_score := 0; star_count := 0%Z; language := None |}.

Definition num (n : nat) : string := NilEmpty.string_of_uint (Nat.to_uint n).

(** One repository whose topic list repeats a topic. *)
Definition repeated_topic_data : list Repo :=
  [mk_repo "o/A" ["x"; "x"; "y"]].

(** Two repositories with one topic in common. *)
Definition one_shared_topic_data : list Repo :=
  [mk_repo "o/A" ["x"]; mk_repo "o/B" ["x"]].

(** A chain r0 - r1 - ... - r5: consecutive repositories share one topic. *)
Definition chain_data : list Repo :=
  [mk_repo "o/r0" ["t0"];
   mk_repo "o/r1" ["t0"; "t1"];
   mk_repo "o/r2" ["t1"; "t2"];
   mk_repo "o/r3" ["t2"; "t3"];
   mk_repo "o/r4" ["t3"; "t4"];
   mk_repo "o/r5" ["t4"]].

(** A seed with 5 topics, 5 repositories under each of them (25 in all), and
    5 further repositories under a topic of each of the 25: 151 records,
    the outermost first and the seed last. *)
Definition leaf_repo (i k : nat) : Repo :=
  mk_repo ("o/leaf" +:+ num i +:+ "_" +:+ num k) ["u" +:+ num i].
Definition mid_repo (i : nat) : Repo :=
  mk_repo ("o/mid" +:+ num i) ["t" +:+ num (i / 5); "u" +:+ num i].
Definition seed_repo : Repo :=
  mk_repo "o/seed" ["t0"; "t1"; "t2"; "t3"; "t4"].
Definition wide_data : list Repo :=
  (i ← seq 0 25; k ← seq 0 5; [leaf_repo i k])
    ++ (mid_repo <$> seq 0 25) ++ [seed_repo].

(** [n] repositories alone under their two topics, each listing its first
    topic twice, followed by two repositories with two topics in common. *)
Definition solo_name (i : nat) : string := "o/s" +:+ num i.
Definition solo_topic (i : nat) : string := "a" +:+ num i.
Definition solo_extra (i : nat) : string := "b" +:+ num i.
Definition solo_repo (i : nat) : Repo :=
  mk_repo (solo_name i) [solo_topic i; solo_topic i; solo_extra i].
Definition pq_data : list Repo :=
  [mk_repo "o/P" ["x"; "y"]; mk_repo "o/Q" ["x"; "y"]].
Definition crowded (n : nat) : list Repo := (solo_repo <$> seq 0 n) ++ pq_data.
Definition crowded_data : list Repo := crowded 1000.

(** The entries of the topic index that come from repository [i], and the
    pairs recorded once the first [i] repositories are done. *)
Definition solo_items (i : nat) : list (string * list string) :=
  [(solo_topic i, [solo_name i; solo_name i]); (solo_extra i, [solo_name i])].
Definition solo_keys (i : nat) : gset (string * string) :=
  list_to_set ((fun j => (solo_name j, solo_name j)) <$> seq 0 i).

(** The scenario of the specification: A and B share x and y, A and C
    share x only. *)
Definition abc_data : list Repo :=
  [mk_repo "o/A" ["x"; "y"]; mk_repo "o/B" ["x"; "y"]; mk_repo "o/C" ["x"]].

(** ** Invariants of the builders *)

(** The weight of an edge is the number of topics its endpoints share, as
    read from the repository map, and is at least 2. *)
Definition edge_weights_ok (self : GitHubGraphVisualizer) (G : Graph) : Prop :=
  ∀ u v w, (u, v, w) ∈ edges G →
    ∃ ru rv, repo_map self !! u = Some ru ∧ repo_map self !! v = Some rv
             ∧ w = Z.of_nat (shared_topics (topics ru) (topics rv))
             ∧ 2 ≤ shared_topics (topics ru) (topics rv).

Record full_inv (self : GitHubGraphVisualizer) (st : FullState) : Prop := {
  inv_keys_NoDup : NoDup (edge_keys (fs_G st));
  inv_added : ∀ k, k ∈ added_edges st ↔ k ∈ edge_keys (fs_G st);
  inv_count : edge_count st = length (edges (fs_G st));
  inv_size : size (added_edges st) = edge_count st;
  inv_cap : edge_count st ≤ max_edges;
  inv_endpoints : endpoints_in_nodes (fs_G st);
  inv_weights : edge_weights_ok self (fs_G st);
}.

(** [R] holds of every entry of [l] and each entry after it. *)
Fixpoint all_pairs (R : string → string → Prop) (l : list string) : Prop :=
  match l with
  | [] => True
  | a :: l' => Forall (R a) l' ∧ all_pairs R l'
  end.

Definition known_pair (self : GitHubGraphVisualizer) (a b : string) : Prop :=
  is_Some (repo_map self !! a) ∧ is_Some (repo_map self !! b).

(** The pairs made of an element of [l] and one after it. *)
Fixpoint ordered_pairs {A : Type} (l : list A) : list (A * A) :=
  match l with
  | [] => []
  | a :: l' => (pair a <$> l') ++ ordered_pairs l'
  end.

(** The pairs of records that share at least 2 topics. *)
Definition qualifying_pairs (data : list Repo) : list (Repo * Repo) :=
  filter (fun p : Repo * Repo => 2 ≤ shared_topics (topics p.1) (topics p.2))
         (ordered_pairs data).

Definition qualifying_keys (data : list Repo) : gset (string * string) :=
  list_to_set ((fun p : Repo * Repo => edge_key (full_name p.1) (full_name p.2))
                 <$> qualifying_pairs data).

(** Records with pairwise different names and no topic listed twice. *)
Definition well_formed (data : list Repo) : Prop :=
  NoDup (full_name <$> data) ∧ Forall (fun repo => NoDup (topics repo)) data.

Global Instance well_formed_dec (data : list Repo) : Decision (well_formed data).
Proof. unfold well_formed. apply _. Defined.

Record wf_inv (data : list Repo) (st : FullState) : Prop := {
  wf_full : full_inv (__init__ data) st;
  wf_loops : no_self_loops (fs_G st);
  wf_added : added_edges st ⊆ qualifying_keys data;
}.

(** The pair [k] has been recorded, or the cap has been reached. *)
Definition covered (k : string * string) (st : FullState) : Prop :=
  k ∈ added_edges st ∨ max_edges ≤ edge_count st.

(** Node [n] carries [level = l]: it was finalized in round [l]. *)
Definition finalized_at (G : Graph) (n : string) (l : nat) : Prop :=
  ∃ a, nodes G !! n = Some a ∧ level a = Some l.

Definition known (self : GitHubGraphVisualizer) (n : string) : Prop :=
  is_Some (repo_map self !! n).

(** The graph and the visited set of a traversal whose rounds so far have
    an index below [B]. *)
Record graph_inv (B : nat) (G : Graph) (seen : gset string) : Prop := {
  gi_keys : NoDup (edge_keys G);
  gi_endpoints : endpoints_in_nodes G;
  gi_loops : no_self_loops G;
  gi_seen : ∀ n, n ∈ seen ↔ ∃ l, finalized_at G n l;
  gi_attrs : ∀ n a, nodes G !! n = Some a → is_Some (level a) →
             is_Some (activity a) ∧ is_Some (star a) ∧ is_Some (lang a);
  gi_levels : ∀ n l, finalized_at G n l →
              l < B ∧ (1 ≤ l → ∃ m, has_edge G n m ∧ finalized_at G m (l - 1));
}.

(** Every member of the frontier under construction in round [L] is a known
    repository joined to a node finalized in round [L]. *)
Definition next_ok (self : GitHubGraphVisualizer) (L : nat) (G : Graph)
  (X : gset string) : Prop :=
  ∀ rr, rr ∈ X → known self rr ∧ ∃ m, has_edge G rr m ∧ finalized_at G m L.

(** Every member of the frontier enumerated in round [L] is a known
    repository, joined to a node finalized in round [L - 1] when [1 ≤ L]. *)
Definition frontier_ok (self : GitHubGraphVisualizer) (L : nat) (G : Graph)
  (X : gset string) : Prop :=
  ∀ x, x ∈ X → known self x
               ∧ (1 ≤ L → ∃ m, has_edge G x m ∧ finalized_at G m (L - 1)).

(** [G'] keeps the edges and the levels of [G]. *)
Definition extends (G G' : Graph) : Prop :=
  (∀ a b, has_edge G a b → has_edge G' a b)
  ∧ (∀ n l, finalized_at G n l → finalized_at G' n l).

(** The state of round [L], started on graph [G0]. *)
Record round_inv (self : GitHubGraphVisualizer) (L : nat) (G0 : Graph)
  (st : EgoState) : Prop := {
  ri_graph : graph_inv (S L) (eg_G st) (visited st);
  ri_next : next_ok self L (eg_G st) (next_level st);
  ri_extends : extends G0 (eg_G st);
}.

(** ** Further notions used in the properties *)

(** The attributes [_build_full_graph] gives the node of a record. *)
Definition record_attrs (repo : Repo) : Attrs :=
  {| activity := Some (activity_score repo);
     star := Some (star_count repo);
     lang := Some (lang_or_unknown (language repo));
     level := None |}.

(** [u] and [v] are both among the first 8 entries of the list of a topic. *)
Definition within_fan_out (self : GitHubGraphVisualizer) (u v : string) : Prop :=
  ∃ t l, (t, l) ∈ topic_to_repos self ∧ u ∈ take 8 l ∧ v ∈ take 8 l.

(** The distinct elements of [l], in the order of their first occurrence. *)
Definition first_seen (l : list string) : list string :=
  reverse (remove_dups (reverse l)).

(** The attributes [_build_4level_graph] gives a node finalized in round
    [lvl]. *)
Definition finalized_attrs (repo : Repo) (lvl : nat) : Attrs :=
  {| activity := Some (activity_score repo);
     star := Some (star_count repo);
     lang := Some (lang_or_unknown (language repo));
     level := Some lvl |}.

(** [v] is one of the first 5 entries of the list of one of the first 5
    topics of the record of [u]. *)
Definition candidate_of (self : GitHubGraphVisualizer) (u v : string) : Prop :=
  ∃ repo t, repo_map self !! u = Some repo ∧ t ∈ take 5 (topics repo)
            ∧ v ∈ take 5 (dict_get t (topic_to_repos self)).

(** ** [_plot_graph]: the styles read off the graph

    The part of [_plot_graph] between the layout and the drawing calls: the
    loop over [G.nodes] that fills [node_sizes], [node_colors] and [labels],
    and the list of edge widths. A character of a Rocq string stands for a
    character of the Python string (repository names are ASCII). *)

Definition LANGUAGE_COLORS : list (string * string) :=
  [("JavaScript", "#F0DB4F"); ("Python", "#3776AB"); ("Java", "#007396");
   ("TypeScript", "#007ACC"); ("C++", "#00599C"); ("C#", "#239120");
   ("Go", "#00ADD8"); ("Rust", "#DEA584"); ("PHP", "#777BB4");
   ("Ruby", "#CC342D"); ("Unknown", "#808080")].

(** [LANGUAGE_COLORS.get(lang, "#808080")] *)
Definition language_color (lang : string) : string :=
  default "#808080" ((list_to_map LANGUAGE_COLORS : gmap string string) !! lang).

(** [s.split(sep)] for a separator of one character. *)
Fixpoint split_on (sep : Ascii.ascii) (s : string) : list string :=
  match s with
  | EmptyString => [EmptyString]
  | String c s' =>
      if decide (c = sep) then EmptyString :: split_on sep s'
      else match split_on sep s' with
           | h :: t => String c h :: t
           | [] => [String c EmptyString]
           end
  end.

(** [s[:n]] *)
Fixpoint str_take (n : nat) (s : string) : string :=
  match n, s with
  | S k, String c s' => String c (str_take k s')
  | _, _ => EmptyString
  end.

Fixpoint has_char (c : Ascii.ascii) (s : string) : Prop :=
  match s with
  | EmptyString => False
  | String d s' => d = c ∨ has_char c s'
  end.

(** [node.split("/")[-1][:12]] *)
Definition node_label (node : string) : string :=
  str_take 12 (default EmptyString (last (split_on "/"%char node))).

(** [attrs[key]] *)
Definition attr {A : Type} (key : string) (field : option A) : Result A :=
  match field with
  | Some x => Return x
  | None => Raise (KeyError key)
  end.

Record NodeStyles := {
  node_sizes : list Q;
  node_colors : list string;
  labels : gmap string string;
}.

Definition no_styles : NodeStyles :=
  {| node_sizes := []; node_colors := []; labels := ∅ |}.

(** [max(min(activity * 10, 1000), 200)] *)
Definition node_size (a : Q) : Q := Qmax (Qmin (a * 10) 1000) 200.

(** The body of [for node in G.nodes]; [attrs["star"]] is only read when
    [is_4level] is false. *)
Definition style_node (is_4level : bool) (acc : NodeStyles) (item : string * Attrs)
  : Result NodeStyles :=
  a ← attr "activity" (activity item.2);
  l ← attr "lang" (lang item.2);
  show ← (if is_4level then mret true
          else s ← attr "star" (star item.2); mret (bool_decide (150000 < s)%Z));
  mret {| node_sizes := node_sizes acc ++ [node_size a];
          node_colors := node_colors acc ++ [language_color l];
          labels := if show : bool then <[item.1 := node_label item.1]> (labels acc)
                    else labels acc |}.

(** The loop, over the nodes and their attributes in the order of [G.nodes]. *)
Definition node_styles (is_4level : bool) (items : list (string * Attrs))
  : Result NodeStyles :=
  foldlM (style_node is_4level) no_styles items.

(** [[max(w * 0.5, 0.2) for w in edge_weights]] *)
Definition edge_widths (G : Graph) : list Q :=
  (fun e : string * string * Z => Qmax (inject_Z e.2 * (1 # 2)) (2 # 10)) <$> edges G.

(** The same loop in github_graph_visualization_1(可用).py, which reads the
    attributes with [attrs.get] and a default. *)
Definition style_node_lenient (is_4level : bool) (acc : NodeStyles)
  (item : string * Attrs) : NodeStyles :=
  let a := default 0%Q (activity item.2) in
  let l := default "Unknown" (lang item.2) in
  let s := default 0%Z (star item.2) in
  {| node_sizes := node_sizes acc ++ [node_size a];
     node_colors := node_colors acc ++ [language_color l];
     labels := if is_4level || bool_decide (150000 < s)%Z
               then <[item.1 := node_label item.1]> (labels acc)
               else labels acc |}.

Definition node_styles_lenient (is_4level : bool) (items : list (string * Attrs))
  : NodeStyles :=
  foldl (style_node_lenient is_4level) no_styles items.

(** The attributes the strict loop reads are there. *)
Definition styleable (is_4level : bool) (a : Attrs) : Prop :=
  is_Some (activity a) ∧ is_Some (lang a) ∧ (is_4level = false → is_Some (star a)).

(** The node gets a label. *)
Definition labelled (is_4level : bool) (a : Attrs) : Prop :=
  is_4level = true ∨ ∃ s, star a = Some s ∧ (150000 < s)%Z.

(** ** [retry_decorator] (github_utils.py)

    The decorated function talks to the network, so its calls are given by
    [func i], the outcome of the call made after [i] failed ones.
    [time.sleep] is given by [sleep]: [sleep secs] is [None] when the sleep
    completes and the exception when [time.sleep(secs)] raises. A run of the
    wrapper yields the number of calls made, the delays of the sleeps that
    completed, in order, and the outcome: a value, [None] (the [return None]
    after the loop) or an exception, which leaves the wrapper whether it
    comes from the last call or from [time.sleep] inside the handler. The
    loop is bounded by [fuel]. *)

Definition MAX_RETRIES : nat := 5.
Definition BASE_DELAY : Z := 2.

Record Run (A : Type) := {
  calls : nat;
  slept : list Z;
  outcome : Result (option A);
}.
Arguments calls {A} _.
Arguments slept {A} _.
Arguments outcome {A} _.

(** [time.sleep(secs)] for a length the platform can represent: a negative
    one is refused. *)
Definition time_sleep (secs : Z) : option exn :=
  if decide (secs < 0)%Z then Some (ValueError "sleep length must be non-negative")
  else None.

Section RetryDecorator.

Context {A : Type}.
Variable max_retries : nat.
Variable base_delay : Z.
Variable sleep : Z → option exn.
Variable func : nat → Result A.

(** [base_delay * (2 ** retries)] *)
Definition delay (retries : nat) : Z := (base_delay * 2 ^ Z.of_nat retries)%Z.

Fixpoint wrapper_loop (fuel retries : nat) (log : list Z) : option (Run A) :=
  match fuel with
  | 0 => None
  | S fuel' =>
      if decide (retries < max_retries) then
        match func retries with
        | Return a =>
            Some {| calls := S retries; slept := log; outcome := Return (Some a) |}
        | Raise e =>
            let retries := S retries in
            match sleep (delay retries) with
            | Some e' => Some {| calls := retries; slept := log; outcome := Raise e' |}
            | None =>
                let log := log ++ [delay retries] in
                if decide (retries = max_retries)
                then Some {| calls := retries; slept := log; outcome := Raise e |}
                else wrapper_loop fuel' retries log
            end
        end
      else Some {| calls := retries; slept := log; outcome := Return None |}
  end.

Definition wrapper : option (Run A) := wrapper_loop (S max_retries) 0 [].

(** The delays of the first [k] failed calls. *)
Definition delays (k : nat) : list Z := (fun i => delay (S i)) <$> seq 0 k.

(** What a run of the loop looks like, from the state reached after
    [retries] failed calls. *)
Definition run_from (retries : nat) (run : Run A) : Prop :=
  retries ≤ calls run ≤ max_retries
  ∧ (∀ i, retries ≤ i → S i < calls run →
       (∃ e, func i = Raise e) ∧ sleep (delay (S i)) = None)
  ∧ match outcome run with
    | Return (Some a) =>
        retries < calls run ∧ func (calls run - 1) = Return a
        ∧ slept run = delays (calls run - 1)
    | Return None =>
        calls run = retries ∧ retries = max_retries
        ∧ slept run = delays retries
    | Raise e =>
        retries < calls run
        ∧ ∃ e0, func (calls run - 1) = Raise e0
          ∧ ((sleep (delay (calls run)) = None
              ∧ calls run = max_retries ∧ e = e0
              ∧ slept run = delays (calls run))
             ∨ (sleep (delay (calls run)) = Some e
                ∧ slept run = delays (calls run - 1)))
    end.

End RetryDecorator.

(** ** [GitHubTopCrawler.get_top_star_repos] (github_crawler.py)

    [fetch page] stands for the request of one page of the search, with
    [raise_for_status] and the read of ["items"] (an absent or empty list
    ends the loop); [entry_of] builds the dict kept for an item. The pages
    requested are logged. [get_top_star_repos] is one run of the body of the
    method; [get_top_star_repos_retried] below is the method as decorated by
    [@retry_decorator()]. *)

Definition TOP_N : nat := 500.
Definition PER_PAGE : nat := 100.

Section TopStarRepos.

Context {Item Entry : Type}.
Variable entry_of : Item → Entry.
Variable fetch : nat → Result (list Item).

Fixpoint page_loop (pages asked : list nat) (repos : list Entry)
  : list nat * Result (list Entry) :=
  match pages with
  | [] => (asked, Return repos)
  | page :: rest =>
      let asked := asked ++ [page] in
      match fetch page with
      | Raise e => (asked, Raise e)
      | Return [] => (asked, Return repos)
      | Return items =>
          let repos := repos ++ (entry_of <$> items) in
          if decide (TOP_N ≤ length repos) then (asked, Return repos)
          else page_loop rest asked repos
      end
  end.

Definition get_top_star_repos : list nat * Result (list Entry) :=
  let pages := (TOP_N + PER_PAGE - 1) / PER_PAGE in
  let run := page_loop (seq 1 pages) [] [] in
  (run.1, repos ← run.2; mret (take TOP_N repos)).

End TopStarRepos.

(** The items of the pages of [pages] that come before the first empty one. *)
Fixpoint pages_before_empty {Item : Type} (items : nat → list Item) (pages : list nat)
  : list Item :=
  match pages with
  | [] => []
  | page :: rest =>
      match items page with
      | [] => []
      | its => its ++ pages_before_empty items rest
      end
  end.

(** The method as the crawler calls it, wrapped by [@retry_decorator()]: a
    call of the wrapper is one run of the body, and [fetch attempt page] is
    the answer to the request for [page] made during the run number
    [attempt], counted from 0. *)
Definition get_top_star_repos_retried {Item Entry : Type} (entry_of : Item → Entry)
  (sleep : Z → option exn) (fetch : nat → nat → Result (list Item))
  : option (Run (list Entry)) :=
  wrapper MAX_RETRIES BASE_DELAY sleep
    (fun attempt => (get_top_star_repos entry_of (fetch attempt)).2).

(** ** [GitHubTopCrawler.get_repo_activity] (github_crawler.py)

    The end of the method, once the six counts have been read off the
    responses: the dict of the counts, and the score stored in it under
    ["activity_score"]. *)




(** ** [optimize_cache] (optimize_cache.py)

    A value of the raw cache holds the dict built by [get_repo_details];
    only the keys [optimize_cache] reads are kept. The raw cache is a dict:
    its items are listed in insertion order and its keys are pairwise
    different. *)

Record CacheEntry := {
  raw_repo_id : Z;
  raw_owner : string;
  raw_repo_name : string;
  raw_topics : option (list string);
  raw_activity_score : Q;
  raw_star_count : Z;
  raw_language : option string;
  raw_fork_count : Z;
}.

Record CoreData := {
  core_id : Z;
  core_full_name : string;
  core_owner : string;
  core_name : string;
  core_topics : list string;
  core_activity_score : Q;
  core_star_count : Z;
  core_language : string;
  core_fork_count : Z;
}.

Definition core_data (name : string) (repo : CacheEntry) : CoreData :=
  {| core_id := raw_repo_id repo;
     core_full_name := name;
     core_owner := raw_owner repo;
     core_name := raw_repo_name repo;
     core_topics := default [] (raw_topics repo);
     core_activity_score := raw_activity_score repo;
     core_star_count := raw_star_count repo;
     core_language := lang_or_unknown (raw_language repo);
     core_fork_count := raw_fork_count repo |}.

Definition optimize_cache (raw_cache : list (string * CacheEntry)) : list CoreData :=
  (fun item : string * CacheEntry => core_data item.1 item.2) <$> raw_cache.

(** What [GitHubGraphVisualizer] reads of a record written by
    [optimize_cache]. *)
Definition load_repo (c : CoreData) : Repo :=
  {| full_name := core_full_name c;
     topics := core_topics c;
     activity_score := core_activity_score c;
     star_count := core_star_count c;
     language := Some (core_language c) |}.

(** * Properties *)

(** ** The topic index *)

Lemma dict_get_append (t t' n : string) (m : list (string * list string)) :
  dict_get t (dict_append t' n m)
  = if decide (t' = t) then dict_get t m ++ [n] else dict_get t m.
Proof.
  induction m as [|[k l] m IH]; simpl.
  - repeat case_decide; done.
  - repeat (case_decide; simpl; subst); try done; rewrite IH;
      case_decide; congruence.
Qed.

Lemma dict_get_append_topics (t n : string) (ts : list string)
  (m : list (string * list string)) :
  dict_get t (foldl (fun m tp => dict_append tp n m) m ts)
  = dict_get t m ++ replicate (occurrences t ts) n.
Proof.
  revert m. induction ts as [|tp ts IH]; intros m; simpl.
  - by rewrite app_nil_r.
  - rewrite IH, dict_get_append. unfold occurrences. rewrite filter_cons.
    case_decide; simpl; [|done].
    by rewrite <- app_assoc.
Qed.

Lemma dict_get_build_from (t : string) (data : list Repo)
  (m : list (string * list string)) :
  dict_get t (foldl (fun m repo =>
                       foldl (fun m tp => dict_append tp (full_name repo) m)
                             m (topics repo)) m data)
  = dict_get t m
    ++ (data ≫= fun repo => replicate (occurrences t (topics repo)) (full_name repo)).
Proof.
  revert m. induction data as [|repo data IH]; intros m; simpl.
  - by rewrite app_nil_r.
  - rewrite IH, dict_get_append_topics. by rewrite <- app_assoc.
Qed.

Lemma topic_list_spec (data : list Repo) (t : string) :
  dict_get t (_build_topic_mapping data)
  = data ≫= fun repo => replicate (occurrences t (topics repo)) (full_name repo).
Proof.
  unfold _build_topic_mapping. by rewrite dict_get_build_from.
Qed.

(** C2 (as amended): the list of a topic holds, in record order, the
    full_name of each record once for every occurrence of the topic in that
    record's topic list; a topic listed twice by a record puts the record
    twice in the list, a topic listed once puts it once. *)
Theorem topic_list_once_per_occurrence (data : list Repo) (t : string) :
  dict_get t (_build_topic_mapping data)
  = data ≫= fun repo => replicate (occurrences t (topics repo)) (full_name repo).
Proof. apply topic_list_spec. Qed.

(** C2 (as stated) fails: a record listing topic x twice is entered twice
    under x. *)
Lemma topic_list_repeats_repository :
  dict_get "x" (_build_topic_mapping repeated_topic_data) = ["o/A"; "o/A"]
  ∧ ¬ NoDup (dict_get "x" (_build_topic_mapping repeated_topic_data)).
Proof.
  split; [reflexivity|].
  intros H. apply NoDup_cons_1_1 in H. apply H. vm_compute. left.
Qed.

Lemma occurrences_elem (x : string) (l : list string) :
  occurrences x l ≠ 0 ↔ x ∈ l.
Proof.
  unfold occurrences. induction l as [|y l IH]; simpl.
  - split; [done|]. by intros ?%elem_of_nil.
  - rewrite filter_cons, elem_of_cons. case_decide; simpl; subst.
    + split; [by left|done].
    + rewrite IH. split; [by right|]. intros [?|?]; [by subst|done].
Qed.

Lemma occurrences_NoDup (x : string) (l : list string) :
  NoDup l → occurrences x l ≤ 1.
Proof.
  unfold occurrences. induction 1 as [|y l Hy Hl IH]; simpl; [lia|].
  rewrite filter_cons. case_decide; simpl; subst; [|done].
  assert (occurrences x l = 0) as Hz.
  { destruct (decide (occurrences x l = 0)) as [|Hn]; [done|].
    by apply occurrences_elem in Hn. }
  unfold occurrences in Hz. lia.
Qed.

Lemma elem_of_topic_list (data : list Repo) (t n : string) :
  n ∈ dict_get t (_build_topic_mapping data)
  ↔ ∃ repo, repo ∈ data ∧ full_name repo = n ∧ t ∈ topics repo.
Proof.
  rewrite topic_list_spec, list_elem_of_bind.
  split.
  - intros (repo & [-> Hn]%elem_of_replicate & Hin).
    exists repo. by rewrite <- occurrences_elem.
  - intros (repo & Hin & <- & Ht). exists repo. split; [|done].
    apply elem_of_replicate. by rewrite occurrences_elem.
Qed.

Lemma topic_list_NoDup (data : list Repo) (t : string) :
  NoDup (full_name <$> data) →
  (∀ repo, repo ∈ data → NoDup (topics repo)) →
  NoDup (dict_get t (_build_topic_mapping data)).
Proof.
  rewrite topic_list_spec.
  induction data as [|repo data IH]; simpl; intros Hn Ht; [constructor|].
  apply NoDup_cons in Hn as [Hfresh Hn].
  apply NoDup_app. split_and!.
  - pose proof (occurrences_NoDup t (topics repo)
                  (Ht repo ltac:(left))) as Hle.
    destruct (occurrences t (topics repo)) as [|[|k]]; simpl;
      [constructor| |lia].
    apply NoDup_singleton.
  - intros n [-> _]%elem_of_replicate
      (repo' & [Heq _]%elem_of_replicate & Hin)%list_elem_of_bind.
    apply Hfresh. rewrite Heq. by apply list_elem_of_fmap_2.
  - apply IH; [done|]. intros repo' Hin. apply Ht. by right.
Qed.

Lemma dict_append_keys (t n : string) (m : list (string * list string)) :
  (dict_append t n m).*1 = if decide (t ∈ m.*1) then m.*1 else m.*1 ++ [t].
Proof.
  induction m as [|[k l] m IH]; [done|].
  cbn [dict_append]. rewrite fmap_cons. cbn [fst].
  destruct (decide (k = t)) as [->|Hne].
  - rewrite decide_True; [done|]. left.
  - rewrite fmap_cons, IH. cbn [fst].
    destruct (decide (t ∈ m.*1)) as [Hin|Hin].
    + rewrite decide_True; [done|]. by right.
    + rewrite decide_False; [done|].
      intros [?|?]%elem_of_cons; congruence.
Qed.

Lemma dict_append_keys_NoDup (t n : string) (m : list (string * list string)) :
  NoDup m.*1 → NoDup (dict_append t n m).*1.
Proof.
  intros Hm. rewrite dict_append_keys. case_decide; [done|].
  apply NoDup_app. split_and!; [done| |apply NoDup_singleton].
  intros x Hx ->%list_elem_of_singleton. done.
Qed.

Lemma build_topic_mapping_keys (data : list Repo) :
  NoDup (_build_topic_mapping data).*1.
Proof.
  unfold _build_topic_mapping.
  assert (NoDup ([] : list (string * list string)).*1) as H0 by constructor.
  revert H0. generalize ([] : list (string * list string)).
  induction data as [|repo data IH]; intros m Hm; simpl; [done|].
  apply IH. revert m Hm.
  induction (topics repo) as [|tp ts IHt]; intros m Hm; simpl; [done|].
  apply IHt. by apply dict_append_keys_NoDup.
Qed.

Lemma dict_get_item (t : string) (l : list string) (m : list (string * list string)) :
  NoDup m.*1 → (t, l) ∈ m → dict_get t m = l.
Proof.
  induction m as [|[k l'] m IH]; simpl; intros Hm Hin.
  - by apply elem_of_nil in Hin.
  - apply NoDup_cons in Hm as [Hk Hm].
    apply elem_of_cons in Hin as [Heq|Hin].
    + injection Heq as -> ->. by rewrite decide_True.
    + rewrite decide_False; [by apply IH|].
      intros ->. apply Hk. by apply (list_elem_of_fmap_2 fst) in Hin.
Qed.

Lemma topic_item_list (data : list Repo) (t : string) (l : list string) :
  (t, l) ∈ _build_topic_mapping data → l = dict_get t (_build_topic_mapping data).
Proof.
  intros Hin. symmetry. apply dict_get_item; [|done].
  apply build_topic_mapping_keys.
Qed.

(** ** The repository map *)

Lemma repo_map_lookup_Some (data : list Repo) (n : string) (r : Repo) :
  repo_map (__init__ data) !! n = Some r → r ∈ data ∧ full_name r = n.
Proof.
  simpl. induction data as [|x data IH] using rev_ind; simpl.
  - by rewrite lookup_empty.
  - rewrite foldl_app. simpl. rewrite lookup_insert.
    case_decide as Hx.
    + intros ?; simplify_eq. split; [|done]. apply elem_of_app. right. left.
    + intros [? ?]%IH. split; [|done]. apply elem_of_app. by left.
Qed.

Lemma repo_map_is_Some (data : list Repo) (r : Repo) :
  r ∈ data → is_Some (repo_map (__init__ data) !! full_name r).
Proof.
  simpl. induction data as [|x data IH] using rev_ind; simpl.
  - by intros ?%elem_of_nil.
  - rewrite foldl_app. simpl. rewrite lookup_insert.
    intros [Hin| ->%list_elem_of_singleton]%elem_of_app.
    + case_decide; [by eexists|by apply IH].
    + rewrite decide_True; [by eexists|done].
Qed.

Lemma repo_map_lookup_NoDup (data : list Repo) (r : Repo) :
  NoDup (full_name <$> data) → r ∈ data →
  repo_map (__init__ data) !! full_name r = Some r.
Proof.
  intros Hn Hin.
  destruct (repo_map_is_Some data r Hin) as [r' Hr'].
  rewrite Hr'. f_equal.
  apply repo_map_lookup_Some in Hr' as [Hin' Heq].
  apply list_elem_of_lookup in Hin as [i Hi], Hin' as [j Hj].
  assert (i = j) as ->; [|congruence].
  eapply NoDup_lookup; [exact Hn| |];
    rewrite list_lookup_fmap; [by rewrite Hi|by rewrite Hj, <- Heq].
Qed.

(** ** Edge keys and graph operations *)

Lemma edge_key_sym (a b : string) : edge_key a b = edge_key b a.
Proof.
  unfold edge_key, String.ltb. rewrite (String.compare_antisym a b).
  destruct (String.compare b a) eqn:Hc; simpl; try done.
  by apply String.compare_eq_iff in Hc as ->.
Qed.

Lemma edge_key_cases (a b : string) :
  edge_key a b = (a, b) ∨ edge_key a b = (b, a).
Proof. unfold edge_key. destruct (String.ltb b a); auto. Qed.

Lemma edge_key_eq_iff (a b u v : string) :
  edge_key a b = edge_key u v ↔ (a = u ∧ b = v) ∨ (a = v ∧ b = u).
Proof.
  split.
  - destruct (edge_key_cases a b) as [-> | ->],
             (edge_key_cases u v) as [-> | ->]; intros [= -> ->]; auto.
  - intros [[-> ->]|[-> ->]]; [done|apply edge_key_sym].
Qed.

Lemma same_edge_spec (u v : string) (e : string * string * Z) :
  same_edge u v e = true ↔ edge_key e.1.1 e.1.2 = edge_key u v.
Proof.
  rewrite edge_key_eq_iff. unfold same_edge.
  rewrite orb_true_iff, !andb_true_iff, !String.eqb_eq. done.
Qed.

Lemma existsb_same_edge (u v : string) (G : Graph) :
  existsb (same_edge u v) (edges G) = true ↔ edge_key u v ∈ edge_keys G.
Proof.
  unfold edge_keys. rewrite existsb_exists, list_elem_of_fmap.
  split.
  - intros (e & Hin%list_elem_of_In & He%same_edge_spec). eauto.
  - intros (e & He & Hin). exists e. rewrite same_edge_spec.
    by apply list_elem_of_In in Hin.
Qed.

Lemma add_edge_keys (u v : string) (w : Z) (G : Graph) :
  edge_keys (add_edge u v w G)
  = if decide (edge_key u v ∈ edge_keys G) then edge_keys G
    else edge_keys G ++ [edge_key u v].
Proof.
  unfold edge_keys at 1. unfold add_edge. simpl.
  destruct (existsb (same_edge u v) (edges G)) eqn:Hex.
  - rewrite decide_True by by apply existsb_same_edge.
    unfold edge_keys. rewrite <- list_fmap_compose.
    apply list_fmap_ext. intros i e _. simpl.
    by destruct (same_edge u v e).
  - rewrite decide_False.
    + unfold edge_keys. by rewrite fmap_app.
    + rewrite <- existsb_same_edge. by rewrite Hex.
Qed.

Lemma add_edge_keys_NoDup (u v : string) (w : Z) (G : Graph) :
  NoDup (edge_keys G) → NoDup (edge_keys (add_edge u v w G)).
Proof.
  intros HG. rewrite add_edge_keys. case_decide; [done|].
  apply NoDup_app. split_and!; [done| |apply NoDup_singleton].
  intros x Hx ->%list_elem_of_singleton. done.
Qed.

Lemma edge_keys_no_parallel (G : Graph) :
  NoDup (edge_keys G) → no_parallel_edges G.
Proof.
  intros HG i j e1 e2 Hi Hj Hs%same_edge_spec.
  eapply NoDup_lookup; [exact HG| |]; unfold edge_keys;
    rewrite list_lookup_fmap; [by rewrite Hi|].
  rewrite Hj. simpl. by rewrite Hs.
Qed.

(** What the edge list holds after [add_edge]. *)
Lemma elem_of_add_edge (a b u v : string) (w w' : Z) (G : Graph) :
  (a, b, w') ∈ edges (add_edge u v w G) →
  (a, b, w') ∈ edges G
  ∨ (w' = w ∧ ((a = u ∧ b = v) ∨ (a = v ∧ b = u))).
Proof.
  unfold add_edge. simpl.
  destruct (existsb (same_edge u v) (edges G)).
  - intros (e & He & Hin)%list_elem_of_fmap.
    destruct (same_edge u v e) eqn:Hs.
    + right. apply same_edge_spec, edge_key_eq_iff in Hs.
      destruct e as [[x y] z]. simpl in *. by simplify_eq.
    + left. by subst.
  - intros [?| [= -> -> ->]%list_elem_of_singleton]%elem_of_app; [by left|].
    right. auto.
Qed.

Lemma add_edge_fresh (u v : string) (w : Z) (G : Graph) :
  edge_key u v ∉ edge_keys G →
  edges (add_edge u v w G) = edges G ++ [(u, v, w)].
Proof.
  intros Hk. unfold add_edge. simpl.
  destruct (existsb (same_edge u v) (edges G)) eqn:Hex; [|done].
  by apply existsb_same_edge in Hex.
Qed.

Lemma has_edge_keys (G : Graph) (u v : string) :
  has_edge G u v ↔ edge_key u v ∈ edge_keys G.
Proof.
  unfold has_edge, edge_keys. rewrite list_elem_of_fmap. split.
  - intros (w & [H|H]); eexists; (split; [|exact H]); simpl;
      [done|apply edge_key_sym].
  - intros ([[a b] w] & He & Hin). simpl in He.
    apply edge_key_eq_iff in He as [[-> ->]|[-> ->]]; eauto.
Qed.

Lemma has_edge_sym (G : Graph) (u v : string) : has_edge G u v → has_edge G v u.
Proof. rewrite !has_edge_keys. by rewrite (edge_key_sym v u). Qed.

Lemma has_edge_add_edge (u v : string) (w : Z) (G : Graph) :
  has_edge (add_edge u v w G) u v.
Proof.
  rewrite has_edge_keys, add_edge_keys. case_decide; [done|].
  apply elem_of_app. right. left.
Qed.

Lemma has_edge_add_edge_mono (a b u v : string) (w : Z) (G : Graph) :
  has_edge G a b → has_edge (add_edge u v w G) a b.
Proof.
  rewrite !has_edge_keys, add_edge_keys. case_decide; [done|].
  intros H'. apply elem_of_app. by left.
Qed.

Lemma ensure_node_lookup (n m : string) (ns : gmap string Attrs) :
  ensure_node n ns !! m
  = match ns !! m with
    | Some a => Some a
    | None => if decide (n = m) then Some no_attrs else None
    end.
Proof.
  unfold ensure_node. destruct (ns !! n) eqn:Hn.
  - destruct (ns !! m) eqn:Hm; [done|].
    case_decide; [congruence|done].
  - rewrite lookup_insert. case_decide; subst.
    + by rewrite Hn.
    + by destruct (ns !! m).
Qed.

Lemma add_edge_nodes (u v m : string) (w : Z) (G : Graph) :
  nodes (add_edge u v w G) !! m
  = match nodes G !! m with
    | Some a => Some a
    | None => if decide (m = u ∨ m = v) then Some no_attrs else None
    end.
Proof.
  unfold add_edge. simpl. rewrite !ensure_node_lookup.
  destruct (nodes G !! m); [done|].
  repeat case_decide; try done; exfalso; intuition congruence.
Qed.

Lemma add_edge_endpoints (u v : string) (w : Z) (G : Graph) :
  endpoints_in_nodes G → endpoints_in_nodes (add_edge u v w G).
Proof.
  intros HG a b w' Hin. rewrite !add_edge_nodes.
  apply elem_of_add_edge in Hin as [Hin|[_ Hab]].
  - destruct (HG _ _ _ Hin) as [[? ->] [? ->]]. eauto.
  - destruct (nodes G !! a), (nodes G !! b); repeat case_decide;
      split; eauto; exfalso; intuition congruence.
Qed.

Lemma add_node_nodes (n m : string) (a : Attrs) (G : Graph) :
  nodes (add_node n a G) !! m
  = if decide (n = m) then Some (attrs_update a (default no_attrs (nodes G !! n)))
    else nodes G !! m.
Proof. unfold add_node. simpl. by rewrite lookup_insert. Qed.

Lemma add_node_endpoints (n : string) (a : Attrs) (G : Graph) :
  endpoints_in_nodes G → endpoints_in_nodes (add_node n a G).
Proof.
  intros HG u v w Hin. rewrite !add_node_nodes.
  destruct (HG _ _ _ Hin). repeat case_decide; eauto.
Qed.

(** ** GraphBuilder *)

Section FullGraphLoops.

Variable self : GitHubGraphVisualizer.
Variable P : FullState → Prop.
Variable R : string → string → Prop.

Hypothesis try_pair_P : ∀ r1 r2 st,
  R r1 r2 → P st → edge_count st < max_edges →
  ∃ st', try_pair self r1 r2 st = Return st' ∧ P st'.

Lemma inner_loop_P (r1 : string) (rest : list string) (st : FullState) :
  Forall (R r1) rest → P st →
  ∃ st', inner_loop self r1 rest st = Return st' ∧ P st'.
Proof.
  intros Hrest. revert st.
  induction Hrest as [|r2 rest Hr _ IH]; intros st Hst; simpl; [by eauto|].
  case_decide; [by eauto|].
  destruct (try_pair_P r1 r2 st Hr Hst) as (st1 & -> & Hst1); [lia|].
  simpl. by apply IH.
Qed.

Lemma pair_loop_P (repos : list string) (st : FullState) :
  all_pairs R repos → P st →
  ∃ st', pair_loop self repos st = Return st' ∧ P st'.
Proof.
  revert st. induction repos as [|r1 rest IH]; intros st Hall Hst; simpl;
    [by eauto|].
  destruct Hall as [Hr1 Hall].
  destruct (inner_loop_P r1 rest st Hr1 Hst) as (st1 & -> & Hst1). simpl.
  case_decide; [by eauto|]. by apply IH.
Qed.

Lemma topic_loop_P (items : list (string * list string)) (st : FullState) :
  (∀ t l, (t, l) ∈ items → all_pairs R l) → P st →
  ∃ st', topic_loop self items st = Return st' ∧ P st'.
Proof.
  revert st. induction items as [|[t l] items IH]; intros st Hall Hst; simpl;
    [by eauto|].
  assert (all_pairs R (if decide (8 < length l) then take 8 l else l)) as Hl.
  { assert (all_pairs R l) as Hl by (apply (Hall t); left).
    case_decide; [|done]. clear -Hl. generalize 8.
    induction l as [|a l IHl]; intros [|n]; simpl; try done.
    destruct Hl as [Ha Hl]. split; [|by apply IHl].
    by apply Forall_take. }
  destruct (pair_loop_P _ st Hl Hst) as (st1 & -> & Hst1). simpl.
  apply IH; [|done]. intros t' l' Hin. apply (Hall t'). by right.
Qed.

End FullGraphLoops.

Lemma all_pairs_Forall (S : string → Prop) (l : list string) :
  Forall S l → all_pairs (fun a b => S a ∧ S b) l.
Proof.
  induction 1 as [|a l Ha Hl IH]; simpl; [done|]. split; [|done].
  eapply Forall_impl; [exact Hl|]. by intros b Hb.
Qed.

Lemma all_pairs_NoDup (l : list string) :
  NoDup l → all_pairs (fun a b => a ≠ b) l.
Proof.
  induction 1 as [|a l Ha Hl IH]; simpl; [done|]. split; [|done].
  apply Forall_forall. intros b Hb ->. done.
Qed.

Lemma all_pairs_and (R1 R2 : string → string → Prop) (l : list string) :
  all_pairs R1 l → all_pairs R2 l → all_pairs (fun a b => R1 a b ∧ R2 a b) l.
Proof.
  induction l as [|a l IH]; simpl; [done|]. intros [H1 H1'] [H2 H2'].
  split; [|by apply IH].
  apply Forall_forall. intros b Hb. split.
  - by eapply Forall_forall in H1.
  - by eapply Forall_forall in H2.
Qed.

(** Every name of a topic list is a key of the repository map. *)
Lemma topic_items_known (data : list Repo) (t : string) (l : list string) :
  (t, l) ∈ topic_to_repos (__init__ data) →
  all_pairs (known_pair (__init__ data)) l.
Proof.
  intros Hin. apply (all_pairs_Forall (fun a => is_Some (repo_map (__init__ data) !! a))).
  apply Forall_forall. intros n Hn.
  rewrite (topic_item_list data t l Hin) in Hn.
  apply elem_of_topic_list in Hn as (repo & Hrepo & <- & _).
  by apply repo_map_is_Some.
Qed.

Lemma try_pair_full_inv (self : GitHubGraphVisualizer) (r1 r2 : string)
  (st : FullState) :
  known_pair self r1 r2 → full_inv self st → edge_count st < max_edges →
  ∃ st', try_pair self r1 r2 st = Return st' ∧ full_inv self st'.
Proof.
  intros [[ru Hu] [rv Hv]] Hinv Hlt. unfold try_pair, repo_lookup.
  case_decide as Hkey; [by eauto|]. rewrite Hu, Hv. simpl.
  case_decide as Hshared; [|by eauto].
  eexists. split; [done|].
  assert (edge_key r1 r2 ∉ edge_keys (fs_G st)) as Hfresh
    by by rewrite <- (inv_added _ _ Hinv).
  destruct Hinv. constructor; cbn [fs_G added_edges edge_count].
  - by apply add_edge_keys_NoDup.
  - intros k. rewrite add_edge_keys. rewrite decide_False; [|done].
    rewrite elem_of_union, elem_of_app, elem_of_singleton,
      list_elem_of_singleton. rewrite inv_added0. tauto.
  - rewrite add_edge_fresh by done. rewrite length_app. simpl. lia.
  - rewrite size_union by by apply disjoint_singleton_l.
    rewrite size_singleton. lia.
  - lia.
  - by apply add_edge_endpoints.
  - intros u v w. rewrite add_edge_fresh by done.
    intros [Hin|[= -> -> ->]%list_elem_of_singleton]%elem_of_app;
      [by apply inv_weights0|].
    by exists ru, rv.
Qed.

Lemma full_graph_nodes_edges (data : list Repo) :
  edges (full_graph_nodes data) = [].
Proof.
  unfold full_graph_nodes.
  induction data as [|repo data IH] using rev_ind; [done|].
  by rewrite foldl_app.
Qed.

Lemma full_inv_init (self : GitHubGraphVisualizer) :
  full_inv self {| fs_G := full_graph_nodes (repo_data self);
                   added_edges := ∅; edge_count := 0 |}.
Proof.
  constructor; cbn [fs_G added_edges edge_count];
    unfold edge_keys, endpoints_in_nodes, edge_weights_ok;
    rewrite ?full_graph_nodes_edges.
  - constructor.
  - intros k. split; [by intros ?%not_elem_of_empty|by intros ?%elem_of_nil].
  - done.
  - done.
  - unfold max_edges. lia.
  - by intros u v w ?%elem_of_nil.
  - by intros u v w ?%elem_of_nil.
Qed.

(** The loops of GraphBuilder run to the end on the object built by
    [__init__] and keep the invariant. *)
Lemma full_graph_state_inv (data : list Repo) :
  ∃ st, full_graph_state (__init__ data) = Return st
        ∧ full_inv (__init__ data) st.
Proof.
  unfold full_graph_state.
  apply (topic_loop_P _ _ (known_pair (__init__ data))).
  - intros r1 r2 st. apply try_pair_full_inv.
  - apply topic_items_known.
  - apply full_inv_init.
Qed.

(** C4: GraphBuilder returns a graph in which every edge has a weight of at
    least 2, equal to the number of topics common to the topic sets of its
    two endpoints, and which has at most 1000 edges. *)
Theorem full_graph_weights_and_cap (data : list Repo) :
  ∃ G, _build_full_graph (__init__ data) = Return G
       ∧ (∀ u v w, (u, v, w) ∈ edges G →
            (2 ≤ w)%Z
            ∧ ∃ ru rv, repo_map (__init__ data) !! u = Some ru
                       ∧ repo_map (__init__ data) !! v = Some rv
                       ∧ w = Z.of_nat (size ((list_to_set (topics ru) : gset string)
                                               ∩ list_to_set (topics rv))))
       ∧ length (edges G) ≤ 1000.
Proof.
  destruct (full_graph_state_inv data) as (st & Hst & Hinv).
  exists (fs_G st). unfold _build_full_graph. rewrite Hst. split; [done|].
  split.
  - intros u v w Hin.
    destruct (inv_weights _ _ Hinv u v w Hin) as (ru & rv & Hu & Hv & -> & H2).
    split; [lia|]. by exists ru, rv.
  - rewrite <- (inv_count _ _ Hinv). apply (inv_cap _ _ Hinv).
Qed.

Lemma shared_topics_comm (t1 t2 : list string) :
  shared_topics t1 t2 = shared_topics t2 t1.
Proof. unfold shared_topics. by rewrite (comm_L (∩)). Qed.

Lemma elem_of_ordered_pairs {A : Type} (a b : A) (l : list A) :
  a ∈ l → b ∈ l → a ≠ b →
  (a, b) ∈ ordered_pairs l ∨ (b, a) ∈ ordered_pairs l.
Proof.
  induction l as [|x l IH]; simpl; [by intros ?%elem_of_nil|].
  intros [->|Ha]%elem_of_cons [->|Hb]%elem_of_cons Hne; try done.
  - left. apply elem_of_app. left. by apply list_elem_of_fmap_2.
  - right. apply elem_of_app. left. by apply list_elem_of_fmap_2.
  - destruct (IH Ha Hb Hne); [left|right]; apply elem_of_app; by right.
Qed.

Lemma size_list_to_set_le (l : list (string * string)) :
  size (list_to_set l : gset (string * string)) ≤ length l.
Proof.
  induction l as [|x l IH]; [by vm_compute|].
  rewrite list_to_set_cons, size_union_alt, size_singleton. simpl.
  assert (size (list_to_set l ∖ {[x]} : gset (string * string))
          ≤ size (list_to_set l : gset (string * string))) as Hle
    by (apply subseteq_size; intros y [? _]%elem_of_difference; done).
  lia.
Qed.

Lemma qualifying_key (data : list Repo) (r1 r2 : string) (ru rv : Repo) :
  NoDup (full_name <$> data) →
  repo_map (__init__ data) !! r1 = Some ru →
  repo_map (__init__ data) !! r2 = Some rv →
  r1 ≠ r2 → 2 ≤ shared_topics (topics ru) (topics rv) →
  edge_key r1 r2 ∈ qualifying_keys data.
Proof.
  intros Hn [Hu <-]%repo_map_lookup_Some [Hv <-]%repo_map_lookup_Some Hne Hsh.
  unfold qualifying_keys, qualifying_pairs.
  rewrite elem_of_list_to_set, list_elem_of_fmap.
  destruct (elem_of_ordered_pairs ru rv data Hu Hv) as [Hp|Hp];
    [congruence| |].
  - exists (ru, rv). split; [done|]. by apply list_elem_of_filter.
  - exists (rv, ru). split; [apply edge_key_sym|].
    apply list_elem_of_filter. split; [|done]. simpl.
    by rewrite shared_topics_comm.
Qed.

Lemma try_pair_wf_inv (data : list Repo) (r1 r2 : string) (st : FullState) :
  NoDup (full_name <$> data) →
  known_pair (__init__ data) r1 r2 ∧ r1 ≠ r2 → wf_inv data st →
  edge_count st < max_edges →
  ∃ st', try_pair (__init__ data) r1 r2 st = Return st' ∧ wf_inv data st'.
Proof.
  intros Hn [Hk Hne] [Hfull Hloops Hadded] Hlt.
  destruct (try_pair_full_inv _ r1 r2 st Hk Hfull Hlt) as (st' & Hst' & Hfull').
  exists st'. split; [done|]. split; [done| |].
  - revert Hst'. unfold try_pair, repo_lookup.
    destruct Hk as [[ru ->] [rv ->]]. simpl.
    repeat case_decide; intros [= <-]; try done. simpl.
    intros u v w [Hin|[_ [[-> ->]|[-> ->]]]]%elem_of_add_edge; eauto.
  - revert Hst'. unfold try_pair, repo_lookup.
    destruct Hk as [[ru Hu] [rv Hv]]. rewrite Hu, Hv. simpl.
    repeat case_decide; intros [= <-]; try done. simpl.
    apply union_subseteq. split; [|done].
    apply singleton_subseteq_l. by eapply qualifying_key.
Qed.

(** ** Monotonicity of the recorded pairs *)

Lemma try_pair_covered (self : GitHubGraphVisualizer) (k : string * string)
  (r1 r2 : string) (st st' : FullState) :
  try_pair self r1 r2 st = Return st' → covered k st → covered k st'.
Proof.
  unfold try_pair, covered.
  destruct (repo_lookup self r1), (repo_lookup self r2); simpl;
    repeat case_decide; intros [= <-]; simpl; try done.
  intros [?|?]; [left; apply elem_of_union; by right|right; lia].
Qed.

Lemma inner_loop_covered (self : GitHubGraphVisualizer) (k : string * string)
  (r1 : string) (rest : list string) (st st' : FullState) :
  inner_loop self r1 rest st = Return st' → covered k st → covered k st'.
Proof.
  revert st. induction rest as [|r2 rest IH]; intros st; simpl.
  - by intros [= <-].
  - case_decide; [by intros [= <-]|].
    destruct (try_pair self r1 r2 st) as [|st1] eqn:Hst1; simpl; [done|].
    intros Hst' Hk. eapply IH; [done|]. by eapply try_pair_covered.
Qed.

Lemma pair_loop_covered (self : GitHubGraphVisualizer) (k : string * string)
  (repos : list string) (st st' : FullState) :
  pair_loop self repos st = Return st' → covered k st → covered k st'.
Proof.
  revert st. induction repos as [|r1 rest IH]; intros st; simpl.
  - by intros [= <-].
  - destruct (inner_loop self r1 rest st) as [|st1] eqn:Hst1; simpl; [done|].
    intros Hst' Hk. eapply inner_loop_covered in Hk; [|done].
    case_decide; [by injection Hst' as <-|]. by eapply IH.
Qed.

Lemma topic_loop_covered (self : GitHubGraphVisualizer) (k : string * string)
  (items : list (string * list string)) (st st' : FullState) :
  topic_loop self items st = Return st' → covered k st → covered k st'.
Proof.
  revert st. induction items as [|[t l] items IH]; intros st; simpl.
  - by intros [= <-].
  - destruct (pair_loop self _ st) as [|st1] eqn:Hst1; simpl; [done|].
    intros Hst' Hk. eapply IH; [done|]. by eapply pair_loop_covered.
Qed.

(** ** Pairs reached by the loops *)

Lemma try_pair_adds (self : GitHubGraphVisualizer) (r1 r2 : string)
  (ru rv : Repo) (st st' : FullState) :
  repo_map self !! r1 = Some ru → repo_map self !! r2 = Some rv →
  2 ≤ shared_topics (topics ru) (topics rv) →
  try_pair self r1 r2 st = Return st' → edge_key r1 r2 ∈ added_edges st'.
Proof.
  intros Hu Hv Hsh. unfold try_pair, repo_lookup. rewrite Hu, Hv. simpl.
  repeat case_decide; intros [= <-]; simpl; try done.
  apply elem_of_union. left. by apply elem_of_singleton.
Qed.

Lemma inner_loop_reaches (self : GitHubGraphVisualizer) (r1 b : string)
  (ru rv : Repo) (rest : list string) (st st' : FullState) :
  repo_map self !! r1 = Some ru → repo_map self !! b = Some rv →
  2 ≤ shared_topics (topics ru) (topics rv) → b ∈ rest →
  inner_loop self r1 rest st = Return st' → covered (edge_key r1 b) st'.
Proof.
  intros Hu Hv Hsh. revert st.
  induction rest as [|r2 rest IH]; intros st; simpl; [by intros ?%elem_of_nil|].
  intros Hb. case_decide; [intros [= <-]; by right|].
  destruct (try_pair self r1 r2 st) as [|st1] eqn:Hst1; simpl; [done|].
  intros Hst'. apply elem_of_cons in Hb as [->|Hb]; [|by eapply IH].
  eapply inner_loop_covered; [done|]. left. by eapply try_pair_adds.
Qed.

Lemma pair_loop_reaches (self : GitHubGraphVisualizer) (a b : string)
  (ru rv : Repo) (l1 l2 : list string) (st st' : FullState) :
  repo_map self !! a = Some ru → repo_map self !! b = Some rv →
  2 ≤ shared_topics (topics ru) (topics rv) → b ∈ l2 →
  pair_loop self (l1 ++ a :: l2) st = Return st' → covered (edge_key a b) st'.
Proof.
  intros Hu Hv Hsh Hb. revert st.
  induction l1 as [|x l1 IH]; intros st; simpl.
  - destruct (inner_loop self a l2 st) as [|st1] eqn:Hst1; simpl; [done|].
    intros Hst'.
    assert (covered (edge_key a b) st1) as Hc
      by by eapply inner_loop_reaches.
    case_decide; [by injection Hst' as <-|].
    by eapply pair_loop_covered.
  - destruct (inner_loop self x _ st) as [|st1]; simpl; [done|].
    case_decide; [intros [= <-]; by right|]. apply IH.
Qed.

Lemma topic_loop_reaches (self : GitHubGraphVisualizer) (a b t : string)
  (ru rv : Repo) (l1 l2 : list string)
  (items : list (string * list string)) (st st' : FullState) :
  repo_map self !! a = Some ru → repo_map self !! b = Some rv →
  2 ≤ shared_topics (topics ru) (topics rv) → b ∈ l2 →
  (t, l1 ++ a :: l2) ∈ items → length (l1 ++ a :: l2) ≤ 8 →
  topic_loop self items st = Return st' → covered (edge_key a b) st'.
Proof.
  intros Hu Hv Hsh Hb Hin Hlen. revert st.
  induction items as [|[t' l] items IH]; intros st; simpl;
    [by apply elem_of_nil in Hin|].
  destruct (pair_loop self _ st) as [|st1] eqn:Hst1; simpl; [done|].
  intros Hst'. apply elem_of_cons in Hin as [[= <- <-]|Hin]; [|by eapply IH].
  rewrite decide_False in Hst1 by lia.
  eapply topic_loop_covered; [done|]. by eapply pair_loop_reaches.
Qed.

Lemma elem_of_split_pair (a b : string) (l : list string) :
  a ∈ l → b ∈ l → a ≠ b →
  (∃ l1 l2, l = l1 ++ a :: l2 ∧ b ∈ l2) ∨ (∃ l1 l2, l = l1 ++ b :: l2 ∧ a ∈ l2).
Proof.
  intros (l1 & l2 & ->)%list_elem_of_split Hb Hne.
  apply elem_of_app in Hb as [Hb|Hb].
  - right. apply list_elem_of_split in Hb as (k1 & k2 & ->).
    exists k1, (k2 ++ a :: l2). split; [by rewrite <- app_assoc|].
    apply elem_of_app. right. left.
  - left. exists l1, l2. split; [done|].
    apply elem_of_cons in Hb as [->|Hb]; done.
Qed.

(** With pairwise different names and topic lists without repetition, the
    loops of GraphBuilder keep [wf_inv]. *)
Lemma full_graph_state_wf (data : list Repo) :
  well_formed data →
  ∃ st, full_graph_state (__init__ data) = Return st ∧ wf_inv data st.
Proof.
  intros [Hn Ht]. unfold full_graph_state.
  apply (topic_loop_P _ _
           (fun a b => known_pair (__init__ data) a b ∧ a ≠ b)).
  - intros r1 r2 st. by apply try_pair_wf_inv.
  - intros t l Hin. apply all_pairs_and; [by eapply topic_items_known|].
    apply all_pairs_NoDup. simpl in Hin.
    rewrite (topic_item_list data t l Hin). apply topic_list_NoDup; [done|].
    by apply Forall_forall.
  - split; [apply full_inv_init| |done].
    intros u v w. simpl. rewrite full_graph_nodes_edges.
    by intros ?%elem_of_nil.
Qed.

Lemma dict_get_elem (t n : string) (m : list (string * list string)) :
  n ∈ dict_get t m → (t, dict_get t m) ∈ m.
Proof.
  induction m as [|[k l] m IH]; simpl; [by intros ?%elem_of_nil|].
  case_decide as Hk; [subst; left|right; auto].
Qed.

Lemma well_formed_names (data : list Repo) (ra rb : Repo) :
  NoDup (full_name <$> data) → ra ∈ data → rb ∈ data → ra ≠ rb →
  full_name ra ≠ full_name rb.
Proof.
  intros Hn Ha Hb Hne Heq. apply Hne.
  apply (repo_map_lookup_NoDup data) in Ha, Hb; try done.
  rewrite Heq in Ha. congruence.
Qed.

(** Once the cap is reached within the hypotheses of the converse, every
    qualifying pair has been recorded. *)
Lemma covered_recorded (data : list Repo) (k : string * string) (st : FullState) :
  wf_inv data st → length (qualifying_pairs data) ≤ 1000 →
  k ∈ qualifying_keys data → covered k st → k ∈ added_edges st.
Proof.
  intros [Hfull _ Hsub] Hq Hk [Hin|Hcap]; [done|].
  assert (added_edges st = qualifying_keys data) as ->; [|done].
  apply set_subseteq_size_eq; [done|].
  rewrite (inv_size _ _ Hfull).
  etrans; [apply size_list_to_set_le|]. rewrite length_fmap.
  unfold max_edges in Hcap. lia.
Qed.

(** C5 (as amended): GraphBuilder never joins two repositories that share
    fewer than 2 topics; and when the records have pairwise different names
    and no record lists a topic twice, no topic indexes more than 8
    repositories and at most 1000 pairs share 2 topics or more, every such
    pair is joined by an edge. *)
Theorem full_graph_edges_of_shared_pairs (data : list Repo) :
  ∃ G, _build_full_graph (__init__ data) = Return G
       ∧ (∀ u v w, (u, v, w) ∈ edges G →
            ∃ ru rv, repo_map (__init__ data) !! u = Some ru
                     ∧ repo_map (__init__ data) !! v = Some rv
                     ∧ 2 ≤ shared_topics (topics ru) (topics rv))
       ∧ (well_formed data →
          Forall (fun item : string * list string => length item.2 ≤ 8)
                 (topic_to_repos (__init__ data)) →
          length (qualifying_pairs data) ≤ 1000 →
          ∀ ra rb, ra ∈ data → rb ∈ data → ra ≠ rb →
                   2 ≤ shared_topics (topics ra) (topics rb) →
                   has_edge G (full_name ra) (full_name rb)).
Proof.
  destruct (full_graph_state_inv data) as (st & Hst & Hinv).
  exists (fs_G st). unfold _build_full_graph. rewrite Hst.
  split; [done|]. split.
  - intros u v w Hin.
    destruct (inv_weights _ _ Hinv u v w Hin) as (ru & rv & ? & ? & _ & ?).
    by exists ru, rv.
  - intros Hwf H8 Hq ra rb Ha Hb Hne Hsh.
    destruct (full_graph_state_wf data Hwf) as (st2 & Hst2 & Hwfinv).
    rewrite Hst in Hst2. injection Hst2 as <-.
    destruct Hwf as [Hn Ht].
    pose proof (well_formed_names data ra rb Hn Ha Hb Hne) as Hnames.
    pose proof (repo_map_lookup_NoDup data ra Hn Ha) as Hra.
    pose proof (repo_map_lookup_NoDup data rb Hn Hb) as Hrb.
    apply has_edge_keys. apply (inv_added _ _ Hinv).
    apply (covered_recorded data); [done|done|by eapply qualifying_key|].
    (* a topic common to both records *)
    destruct (size_pos_elem_of
                ((list_to_set (topics ra) : gset string) ∩ list_to_set (topics rb)))
      as [t Htt]; [unfold shared_topics in Hsh; lia|].
    apply elem_of_intersection in Htt as [Hta Htb].
    apply elem_of_list_to_set in Hta, Htb.
    set (l := dict_get t (topic_to_repos (__init__ data))).
    assert (full_name ra ∈ l) as Hal
      by (apply elem_of_topic_list; by exists ra).
    assert (full_name rb ∈ l) as Hbl
      by (apply elem_of_topic_list; by exists rb).
    assert ((t, l) ∈ topic_to_repos (__init__ data)) as Hitem
      by by eapply dict_get_elem.
    assert (length l ≤ 8) as Hlen
      by (rewrite Forall_forall in H8; apply (H8 (t, l) Hitem)).
    destruct (elem_of_split_pair _ _ l Hal Hbl Hnames)
      as [(l1 & l2 & Hl & Hin)|(l1 & l2 & Hl & Hin)].
    + rewrite Hl in Hitem, Hlen.
      by eapply (topic_loop_reaches _ _ _ t ra rb l1 l2).
    + rewrite Hl in Hitem, Hlen. rewrite edge_key_sym.
      eapply (topic_loop_reaches _ _ _ t rb ra l1 l2); try done.
      by rewrite shared_topics_comm.
Qed.

(** ** EgoNetworkBuilder *)

Lemma extends_refl (G : Graph) : extends G G.
Proof. by split. Qed.

Lemma extends_trans (G1 G2 G3 : Graph) :
  extends G1 G2 → extends G2 G3 → extends G1 G3.
Proof. intros [H1 H2] [H3 H4]. split; eauto. Qed.

Lemma finalized_at_add_edge (u v : string) (w : Z) (G : Graph) (n : string) (l : nat) :
  finalized_at (add_edge u v w G) n l ↔ finalized_at G n l.
Proof.
  unfold finalized_at. split; intros (a & Ha & Hl).
  - rewrite add_edge_nodes in Ha.
    destruct (nodes G !! n) as [a'|]; [simplify_eq; eauto|].
    case_decide; simplify_eq.
  - exists a. by rewrite add_edge_nodes, Ha.
Qed.

Lemma extends_add_edge (u v : string) (w : Z) (G : Graph) :
  extends G (add_edge u v w G).
Proof.
  split.
  - intros a b. apply has_edge_add_edge_mono.
  - intros n l. by rewrite finalized_at_add_edge.
Qed.

Lemma level_attrs_update (a old : Attrs) (L : nat) :
  level a = Some L → level (attrs_update a old) = Some L.
Proof. intros Hl. unfold attrs_update. simpl. by rewrite Hl. Qed.

Lemma finalized_at_add_node (n : string) (a : Attrs) (G : Graph) (L : nat)
  (m : string) (l : nat) :
  level a = Some L → (∀ l', ¬ finalized_at G n l') →
  finalized_at (add_node n a G) m l ↔ (m = n ∧ l = L) ∨ finalized_at G m l.
Proof.
  intros Hl Hn. unfold finalized_at. split.
  - intros (a' & Ha' & Hl'). rewrite add_node_nodes in Ha'.
    case_decide; [|by eauto]. simplify_eq.
    rewrite (level_attrs_update _ _ L) in Hl' by done. left. by simplify_eq.
  - intros [[-> ->]|(a' & Ha' & Hl')].
    + eexists. rewrite add_node_nodes, decide_True by done.
      split; [done|]. by apply level_attrs_update.
    + exists a'. rewrite add_node_nodes, decide_False; [done|].
      intros ->. apply (Hn l). by exists a'.
Qed.

Section EgoInvariants.

Variable self : GitHubGraphVisualizer.
Variable set_order : nat → gset string → list string.

Hypothesis topic_lists_known :
  ∀ t, Forall (known self) (dict_get t (topic_to_repos self)).
Hypothesis set_order_perm : ∀ L X, set_order L X ≡ₚ elements X.

Lemma visit_candidate_inv (L : nat) (G0 : Graph) (repo_name : string)
  (st : EgoState) (rr : string) :
  round_inv self L G0 st ∧ finalized_at (eg_G st) repo_name L → known self rr →
  round_inv self L G0 (visit_candidate repo_name st rr)
  ∧ finalized_at (eg_G (visit_candidate repo_name st rr)) repo_name L.
Proof.
  unfold visit_candidate. case_decide as Hc; [|by intros [? ?]].
  destruct Hc as [Hrr Hsize]. intros [[Hg Hn He] Hfin] Hk.
  split; [|by apply finalized_at_add_edge].
  constructor; cbn [eg_G visited next_level].
  - destruct Hg. constructor.
    + by apply add_edge_keys_NoDup.
    + by apply add_edge_endpoints.
    + assert (repo_name ≠ rr) as Hne.
      { intros ->. apply Hrr. apply gi_seen0. by exists L. }
      intros u v w [Hin|[_ [[-> ->]|[-> ->]]]]%elem_of_add_edge; eauto.
    + intros n. rewrite gi_seen0. by setoid_rewrite finalized_at_add_edge.
    + intros n a. rewrite add_edge_nodes.
      destruct (nodes (eg_G st) !! n) eqn:E; [intros [= <-]; eauto|].
      case_decide; intros [= <-] [? ?]; done.
    + intros n l Hf%finalized_at_add_edge.
      destruct (gi_levels0 n l Hf) as [? Hp]. split; [done|].
      intros H1. destruct (Hp H1) as (m & Hm & Hfm). exists m.
      split; [by apply has_edge_add_edge_mono|by apply finalized_at_add_edge].
  - intros x [->%elem_of_singleton|Hx]%elem_of_union.
    + split; [done|]. exists repo_name.
      split; [apply has_edge_sym, has_edge_add_edge|].
      by apply finalized_at_add_edge.
    + destruct (Hn x Hx) as [? (m & ? & ?)]. split; [done|]. exists m.
      split; [by apply has_edge_add_edge_mono|by apply finalized_at_add_edge].
  - eapply extends_trans; [exact He|apply extends_add_edge].
Qed.

Lemma expand_topic_inv (L : nat) (G0 : Graph) (repo_name : string)
  (st : EgoState) (topic : string) :
  round_inv self L G0 st ∧ finalized_at (eg_G st) repo_name L →
  round_inv self L G0 (expand_topic self repo_name st topic)
  ∧ finalized_at (eg_G (expand_topic self repo_name st topic)) repo_name L.
Proof.
  unfold expand_topic.
  assert (Forall (known self) (take 5 (dict_get topic (topic_to_repos self))))
    as Hall by apply Forall_take, topic_lists_known.
  revert st. induction Hall as [|rr l Hrr _ IH]; intros st Hst; simpl; [done|].
  apply IH. by apply visit_candidate_inv.
Qed.

Lemma expand_topics_inv (L : nat) (G0 : Graph) (repo_name : string)
  (ts : list string) (st : EgoState) :
  round_inv self L G0 st ∧ finalized_at (eg_G st) repo_name L →
  round_inv self L G0 (foldl (expand_topic self repo_name) st ts)
  ∧ finalized_at (eg_G (foldl (expand_topic self repo_name) st ts)) repo_name L.
Proof.
  revert st. induction ts as [|t ts IH]; intros st Hst; simpl; [done|].
  apply IH. by apply expand_topic_inv.
Qed.

Lemma process_repo_inv (L : nat) (G0 : Graph) (st : EgoState) (x : string) :
  round_inv self L G0 st → known self x →
  (1 ≤ L → ∃ m, has_edge G0 x m ∧ finalized_at G0 m (L - 1)) →
  ∃ st', process_repo self L st x = Return st' ∧ round_inv self L G0 st'
         ∧ (x ∉ visited st → finalized_at (eg_G st') x L).
Proof.
  intros Hst [repo Hrepo] Hparent. unfold process_repo, repo_lookup.
  case_decide as Hx; [exists st; split_and!; [done|done|by intros ?]|].
  rewrite Hrepo. simpl. eexists. split; [done|].
  cut (∀ st' : EgoState,
         round_inv self L G0 st' ∧ finalized_at (eg_G st') x L →
         round_inv self L G0 st' ∧ (x ∉ visited st → finalized_at (eg_G st') x L));
    [intros Hcut; apply Hcut|by intros st' [? ?]].
  apply expand_topics_inv.
  destruct Hst as [Hg Hn [He1 He2]]. destruct Hg.
  assert (∀ l', ¬ finalized_at (eg_G st) x l') as Hfresh.
  { intros l' Hl'. apply Hx, gi_seen0. by exists l'. }
  set (a := {| activity := Some (activity_score repo);
               star := Some (star_count repo);
               lang := Some (lang_or_unknown (language repo));
               level := Some L |}).
  assert (∀ m l, finalized_at (add_node x a (eg_G st)) m l
                 ↔ (m = x ∧ l = L) ∨ finalized_at (eg_G st) m l) as Hfin
    by (intros m l; by apply finalized_at_add_node).
  split; [|apply Hfin; by left].
  constructor; cbn [eg_G visited next_level].
  - constructor.
    + done.
    + by apply add_node_endpoints.
    + done.
    + intros n. rewrite elem_of_union, elem_of_singleton, gi_seen0.
      setoid_rewrite Hfin. split.
      * intros [->|[l Hl]]; [exists L; by left|exists l; by right].
      * intros [l [[-> _]|Hl]]; [by left|right; by exists l].
    + intros n a'. rewrite add_node_nodes. case_decide; [|by apply gi_attrs0].
      intros [= <-] _. simpl. eauto.
    + intros n l [[-> ->]|Hl]%Hfin.
      * split; [lia|]. intros H1. destruct (Hparent H1) as (m & Hm & Hfm).
        exists m. split; [by apply He1|]. apply Hfin. right. by apply He2.
      * destruct (gi_levels0 n l Hl) as [? Hp]. split; [done|].
        intros H1. destruct (Hp H1) as (m & Hm & Hfm).
        exists m. split; [done|]. apply Hfin. by right.
  - intros rr Hrr. destruct (Hn rr Hrr) as [? (m & Hm & Hfm)].
    split; [done|]. exists m. split; [done|]. apply Hfin. by right.
  - split; [done|]. intros n l Hl. apply Hfin. right. by apply He2.
Qed.

Lemma round_foldlM_inv (L : nat) (G0 : Graph) (l : list string) (st : EgoState) :
  (∀ x, x ∈ l →
     known self x ∧ (1 ≤ L → ∃ m, has_edge G0 x m ∧ finalized_at G0 m (L - 1))) →
  round_inv self L G0 st →
  ∃ st', foldlM (process_repo self L) st l = Return st' ∧ round_inv self L G0 st'.
Proof.
  revert st. induction l as [|x l IH]; intros st Hl Hst; simpl; [by eauto|].
  destruct (Hl x) as [Hk Hp]; [left|].
  destruct (process_repo_inv L G0 st x Hst Hk Hp) as (st1 & -> & Hst1 & _). simpl.
  apply IH; [|done]. intros y Hy. apply Hl. by right.
Qed.

Lemma graph_inv_weaken (B B' : nat) (G : Graph) (seen : gset string) :
  B ≤ B' → graph_inv B G seen → graph_inv B' G seen.
Proof.
  intros HB [? ? ? ? ? Hlev]. constructor; try done.
  intros n l Hl. destruct (Hlev n l Hl). split; [lia|done].
Qed.

Lemma level_loop_inv (k L : nat) (G : Graph) (seen cur : gset string) :
  graph_inv L G seen → frontier_ok self L G cur →
  ∃ G' seen', level_loop set_order self (seq L k) G seen cur = Return (G', seen')
              ∧ graph_inv (L + k) G' seen' ∧ extends G G'.
Proof.
  revert L G seen cur. induction k as [|k IH]; intros L G seen cur HG Hcur; simpl.
  - exists G, seen. split; [done|]. split; [|apply extends_refl].
    by replace (L + 0) with L by lia.
  - case_decide as Hstop.
    + exists G, seen. split; [done|]. split; [|apply extends_refl].
      eapply graph_inv_weaken; [|done]. lia.
    + destruct (round_foldlM_inv L G (set_order L cur)
                  {| eg_G := G; visited := seen; next_level := ∅ |})
        as (st & -> & [Hg Hn He]).
      * intros x Hx. apply Hcur.
        rewrite set_order_perm in Hx. by apply elem_of_elements in Hx.
      * constructor; cbn [eg_G visited next_level].
        -- eapply graph_inv_weaken; [|done]. lia.
        -- by intros rr ?%not_elem_of_empty.
        -- apply extends_refl.
      * simpl.
        destruct (IH (S L) (eg_G st) (visited st) (next_level st))
          as (G' & seen' & -> & HG' & He'); [done| |].
        -- intros x Hx. destruct (Hn x Hx) as [? Hp]. split; [done|].
           intros _. by replace (S L - 1) with L by lia.
        -- exists G', seen'. split; [done|]. split.
           ++ by replace (L + S k) with (S L + k) by lia.
           ++ by eapply extends_trans.
Qed.

Lemma empty_graph_nodes (n : string) : nodes empty_graph !! n = None.
Proof. apply lookup_empty. Qed.

Lemma graph_inv_empty : graph_inv 0 empty_graph ∅.
Proof.
  assert (∀ n l, ¬ finalized_at empty_graph n l) as Hnone.
  { intros n l (a & Ha & _). by rewrite empty_graph_nodes in Ha. }
  constructor.
  - constructor.
  - by intros u v w ?%elem_of_nil.
  - by intros u v w ?%elem_of_nil.
  - intros n. split; [by intros ?%not_elem_of_empty|].
    intros (l & Hl). by apply Hnone in Hl.
  - intros n a Ha. by rewrite empty_graph_nodes in Ha.
  - intros n l Hl. by apply Hnone in Hl.
Qed.

(** The traversal from a known seed runs to the end; its graph and visited
    set satisfy the invariant with all levels below 5. *)
Lemma ego_traversal_inv (start_repo : string) :
  known self start_repo →
  ∃ G seen, ego_traversal set_order self start_repo = Return (G, seen)
            ∧ graph_inv (levels + 1) G seen.
Proof.
  intros Hk. unfold ego_traversal.
  destruct (level_loop_inv (levels + 1) 0 empty_graph ∅ {[start_repo]})
    as (G & seen & HG & Hinv & _).
  - apply graph_inv_empty.
  - intros x ->%elem_of_singleton. split; [done|lia].
  - by exists G, seen.
Qed.

(** The seed is finalized in round 0 and keeps its level. *)
Lemma ego_traversal_seed (start_repo : string) :
  known self start_repo →
  ∃ G seen, ego_traversal set_order self start_repo = Return (G, seen)
            ∧ finalized_at G start_repo 0.
Proof.
  intros Hk. unfold ego_traversal. change (levels + 1) with 5.
  cbn [seq level_loop]. rewrite decide_False; last first.
  { intros [H|H]; [|rewrite size_empty in H; unfold max_nodes in H; lia].
    by apply (non_empty_singleton_L start_repo) in H. }
  assert (set_order 0 {[start_repo]} = [start_repo]) as ->.
  { apply Permutation_singleton_r. by rewrite set_order_perm, elements_singleton. }
  cbn [foldlM].
  destruct (process_repo_inv 0 empty_graph
              {| eg_G := empty_graph; visited := ∅; next_level := ∅ |} start_repo)
    as (st & -> & [Hg Hn He] & Hfin); [|done|lia|].
  { constructor; cbn [eg_G visited next_level].
    - eapply graph_inv_weaken; [|apply graph_inv_empty]. lia.
    - by intros rr ?%not_elem_of_empty.
    - apply extends_refl. }
  cbn [mbind Result_bind mret Result_ret].
  destruct (level_loop_inv 4 1 (eg_G st) (visited st) (next_level st))
    as (G & seen & HG & _ & [_ He']); [done| |].
  { intros x Hx. destruct (Hn x Hx) as [? Hp]. split; [done|]. by intros _. }
  exists G, seen. split; [done|]. apply He', Hfin. apply not_elem_of_empty.
Qed.

End EgoInvariants.

Lemma topic_lists_known_init (data : list Repo) (t : string) :
  Forall (known (__init__ data)) (dict_get t (topic_to_repos (__init__ data))).
Proof.
  apply Forall_forall. intros n (repo & Hrepo & <- & _)%elem_of_topic_list.
  by apply repo_map_is_Some.
Qed.

(** ** Properties of the graphs *)

(** C3 (as amended): the graph of GraphBuilder never has two edges on the
    same unordered pair nor an edge with an endpoint outside its node set,
    and has no self-loop when the records have pairwise different names and
    no record lists a topic twice; the graph of EgoNetworkBuilder, for a
    seed of the repository map and any enumeration order of the frontiers,
    has no self-loop, no two edges on the same unordered pair and no edge
    with an endpoint outside its node set. *)
Theorem graphs_are_simple (data : list Repo) :
  (∃ G, _build_full_graph (__init__ data) = Return G
        ∧ no_parallel_edges G ∧ endpoints_in_nodes G
        ∧ (well_formed data → no_self_loops G))
  ∧ (∀ set_order start_repo,
       (∀ L X, set_order L X ≡ₚ elements X) →
       is_Some (repo_map (__init__ data) !! start_repo) →
       ∃ G, (_build_4level_graph set_order start_repo (__init__ data)).2 = Return G
            ∧ no_self_loops G ∧ no_parallel_edges G ∧ endpoints_in_nodes G).
Proof.
  split.
  - destruct (full_graph_state_inv data) as (st & Hst & Hinv).
    exists (fs_G st). unfold _build_full_graph. rewrite Hst.
    split; [done|]. split; [|split].
    + apply edge_keys_no_parallel, (inv_keys_NoDup _ _ Hinv).
    + apply (inv_endpoints _ _ Hinv).
    + intros Hwf. destruct (full_graph_state_wf data Hwf) as (st2 & Hst2 & Hwfinv).
      rewrite Hst in Hst2. injection Hst2 as <-. apply (wf_loops _ _ Hwfinv).
  - intros set_order start_repo Hperm Hseed.
    destruct (ego_traversal_inv (__init__ data) set_order
                (topic_lists_known_init data) Hperm start_repo Hseed)
      as (G & seen & HG & Hinv).
    exists G. unfold _build_4level_graph. destruct Hseed as [r ->].
    cbn [snd]. rewrite HG. split; [done|]. destruct Hinv.
    split; [done|]. split; [by apply edge_keys_no_parallel|done].
Qed.

Lemma graphs_are_simple_witness :
  (∃ G, _build_full_graph (__init__ abc_data) = Return G ∧ no_self_loops G)
  ∧ (∃ G, (_build_4level_graph elements_order "o/A" (__init__ abc_data)).2 = Return G
          ∧ no_self_loops G).
Proof.
  destruct (graphs_are_simple abc_data) as [(G & HG & _ & _ & Hl) Hego]. split.
  - exists G. split; [done|]. apply Hl. compute_done.
  - destruct (Hego elements_order "o/A") as (G' & HG' & Hl' & _).
    + intros L X. reflexivity.
    + compute_done.
    + exists G'. by split.
Defined.

(** C3 (as stated) fails: a record listing x twice next to y is joined to
    itself by GraphBuilder. *)
Lemma full_graph_self_loop :
  ∃ G, _build_full_graph (__init__ repeated_topic_data) = Return G
       ∧ ("o/A", "o/A", 2%Z) ∈ edges G ∧ ¬ no_self_loops G.
Proof.
  assert (match _build_full_graph (__init__ repeated_topic_data) with
          | Return G => edges G = [("o/A", "o/A", 2%Z)]
          | Raise _ => False
          end) as H by (vm_compute; reflexivity).
  destruct (_build_full_graph (__init__ repeated_topic_data)) as [|G]; [done|].
  exists G. split; [done|]. rewrite H. split; [left|].
  intros Hl. apply (Hl "o/A" "o/A" 2%Z); [rewrite H; left|done].
Qed.

(** C8: for a seed of the repository map and any enumeration order of the
    frontiers, EgoNetworkBuilder returns a graph in which no node has a
    level above 4 and every node of level L ≥ 1 has an edge to a node of
    level L - 1. *)
Theorem ego_levels_and_parents (data : list Repo)
  (set_order : nat → gset string → list string) (start_repo : string) :
  (∀ L X, set_order L X ≡ₚ elements X) →
  is_Some (repo_map (__init__ data) !! start_repo) →
  ∃ G, (_build_4level_graph set_order start_repo (__init__ data)).2 = Return G
       ∧ ∀ n a l, nodes G !! n = Some a → level a = Some l →
           l ≤ 4 ∧ (1 ≤ l → ∃ m am, has_edge G n m ∧ nodes G !! m = Some am
                                    ∧ level am = Some (l - 1)).
Proof.
  intros Hperm Hseed.
  destruct (ego_traversal_inv (__init__ data) set_order
              (topic_lists_known_init data) Hperm start_repo Hseed)
    as (G & seen & HG & Hinv).
  exists G. unfold _build_4level_graph. destruct Hseed as [r ->].
  cbn [snd]. rewrite HG. split; [done|].
  intros n a l Ha Hl.
  destruct (gi_levels _ _ _ Hinv n l) as [Hlt Hp]; [by exists a|].
  split; [unfold levels in Hlt; lia|].
  intros H1. destruct (Hp H1) as (m & Hm & am & Ham & Hlm). by exists m, am.
Qed.

Lemma ego_levels_and_parents_witness :
  (∀ L X, elements_order L X ≡ₚ elements X)
  ∧ is_Some (repo_map (__init__ chain_data) !! "o/r0")
  ∧ ∃ G, (_build_4level_graph elements_order "o/r0" (__init__ chain_data)).2 = Return G
       ∧ ∀ n a l, nodes G !! n = Some a → level a = Some l →
           l ≤ 4 ∧ (1 ≤ l → ∃ m am, has_edge G n m ∧ nodes G !! m = Some am
                                    ∧ level am = Some (l - 1)).
Proof.
  assert (∀ L X, elements_order L X ≡ₚ elements X) as Hperm
    by (intros L X; reflexivity).
  assert (is_Some (repo_map (__init__ chain_data) !! "o/r0")) as Hseed
    by compute_done.
  split; [exact Hperm|]. split; [exact Hseed|].
  exact (ego_levels_and_parents chain_data elements_order "o/r0" Hperm Hseed).
Defined.

(** The part of C1 that the code guarantees: the seed is a node of level 0. *)
Lemma ego_seed_has_level_0 (data : list Repo)
  (set_order : nat → gset string → list string) (start_repo : string) :
  (∀ L X, set_order L X ≡ₚ elements X) →
  is_Some (repo_map (__init__ data) !! start_repo) →
  ∃ G a, (_build_4level_graph set_order start_repo (__init__ data)).2 = Return G
         ∧ nodes G !! start_repo = Some a ∧ level a = Some 0.
Proof.
  intros Hperm Hseed.
  destruct (ego_traversal_seed (__init__ data) set_order
              (topic_lists_known_init data) Hperm start_repo Hseed)
    as (G & seen & HG & a & Ha & Hl).
  exists G, a. unfold _build_4level_graph. destruct Hseed as [r ->].
  cbn [snd]. by rewrite HG.
Qed.

(** The part of C7 that the code guarantees: a node that carries a level
    carries the three other attributes too. *)
Lemma ego_finalized_nodes_have_attrs (data : list Repo)
  (set_order : nat → gset string → list string) (start_repo : string) :
  (∀ L X, set_order L X ≡ₚ elements X) →
  is_Some (repo_map (__init__ data) !! start_repo) →
  ∃ G, (_build_4level_graph set_order start_repo (__init__ data)).2 = Return G
       ∧ ∀ n a, nodes G !! n = Some a → is_Some (level a) →
           is_Some (activity a) ∧ is_Some (star a) ∧ is_Some (lang a).
Proof.
  intros Hperm Hseed.
  destruct (ego_traversal_inv (__init__ data) set_order
              (topic_lists_known_init data) Hperm start_repo Hseed)
    as (G & seen & HG & Hinv).
  exists G. unfold _build_4level_graph. destruct Hseed as [r ->].
  cbn [snd]. rewrite HG. split; [done|]. apply (gi_attrs _ _ _ Hinv).
Qed.

(** C10: when the seed is not a key of the repository map, the call raises
    [ValueError] with a message holding the requested name; no graph is
    returned and the object is the one the method was called on. *)
Theorem ego_unknown_seed (self : GitHubGraphVisualizer)
  (set_order : nat → gset string → list string) (start_repo : string) :
  repo_map self !! start_repo = None →
  _build_4level_graph set_order start_repo self
  = (self, Raise (ValueError ("仓库 " +:+ start_repo +:+ " 不存在！"))).
Proof. intros Hseed. unfold _build_4level_graph. by rewrite Hseed. Qed.

Lemma ego_unknown_seed_witness :
  repo_map (__init__ chain_data) !! "o/nobody" = None
  ∧ _build_4level_graph elements_order "o/nobody" (__init__ chain_data)
    = (__init__ chain_data, Raise (ValueError "仓库 o/nobody 不存在！")).
Proof.
  assert (repo_map (__init__ chain_data) !! "o/nobody" = None) as Hseed
    by (vm_compute; reflexivity).
  split; [exact Hseed|].
  exact (ego_unknown_seed (__init__ chain_data) elements_order "o/nobody" Hseed).
Defined.

Lemma size_two_elements (t1 t2 : string) (X : gset string) :
  t1 ≠ t2 → t1 ∈ X → t2 ∈ X → 2 ≤ size X.
Proof.
  intros Hne H1 H2.
  assert (size ({[t1]} ∪ {[t2]} : gset string) = 2) as <-.
  { rewrite size_union by by apply disjoint_singleton_l, not_elem_of_singleton.
    by rewrite !size_singleton. }
  apply subseteq_size. apply union_subseteq.
  split; by apply singleton_subseteq_l.
Qed.

(** C6 (as amended): GraphBuilder records a pair exactly when it adds its
    edge; a pair that fails the test of 2 shared topics leaves the state as
    it was, hence is not recorded; and when the records have pairwise
    different names, two names listed together under two different topics
    share at least 2 topics, so that a pair failing the test is met under
    one topic only. *)
Theorem recorded_pairs_are_added_edges (data : list Repo) :
  (∃ st, full_graph_state (__init__ data) = Return st
         ∧ ∀ k, k ∈ added_edges st ↔ k ∈ edge_keys (fs_G st))
  ∧ (∀ r1 r2 ru rv st,
       repo_map (__init__ data) !! r1 = Some ru →
       repo_map (__init__ data) !! r2 = Some rv →
       shared_topics (topics ru) (topics rv) < 2 →
       try_pair (__init__ data) r1 r2 st = Return st)
  ∧ (NoDup (full_name <$> data) →
     ∀ t1 t2 r1 r2 ru rv,
       t1 ≠ t2 →
       r1 ∈ dict_get t1 (topic_to_repos (__init__ data)) →
       r2 ∈ dict_get t1 (topic_to_repos (__init__ data)) →
       r1 ∈ dict_get t2 (topic_to_repos (__init__ data)) →
       r2 ∈ dict_get t2 (topic_to_repos (__init__ data)) →
       repo_map (__init__ data) !! r1 = Some ru →
       repo_map (__init__ data) !! r2 = Some rv →
       2 ≤ shared_topics (topics ru) (topics rv)).
Proof.
  split; [|split].
  - destruct (full_graph_state_inv data) as (st & Hst & Hinv).
    exists st. split; [done|]. apply (inv_added _ _ Hinv).
  - intros r1 r2 ru rv st Hu Hv Hsh. unfold try_pair, repo_lookup.
    case_decide; [done|]. rewrite Hu, Hv. simpl.
    case_decide; [lia|done].
  - intros Hn t1 t2 r1 r2 ru rv Hne H11 H21 H12 H22 Hu Hv.
    assert (∀ t r rec, r ∈ dict_get t (topic_to_repos (__init__ data)) →
                       repo_map (__init__ data) !! r = Some rec →
                       t ∈ (list_to_set (topics rec) : gset string)) as Hin.
    { intros t r rec (repo & Hrepo & <- & Ht)%elem_of_topic_list Hrec.
      rewrite (repo_map_lookup_NoDup data repo Hn Hrepo) in Hrec.
      injection Hrec as <-. by apply elem_of_list_to_set. }
    unfold shared_topics. apply (size_two_elements t1 t2); [done| |];
      apply elem_of_intersection; eauto.
Qed.

Lemma recorded_pairs_are_added_edges_witness :
  NoDup (full_name <$> abc_data)
  ∧ ∀ ru rv, repo_map (__init__ abc_data) !! "o/A" = Some ru →
             repo_map (__init__ abc_data) !! "o/B" = Some rv →
             2 ≤ shared_topics (topics ru) (topics rv).
Proof.
  assert (NoDup (full_name <$> abc_data)) as Hn by compute_done.
  split; [exact Hn|]. intros ru rv.
  destruct (recorded_pairs_are_added_edges abc_data) as (_ & _ & H).
  apply (H Hn "x" "y" "o/A" "o/B" ru rv); compute_done.
Defined.

(** C6 (as stated) fails: A and B are both listed under x, their only
    common topic; the pair is evaluated under x, fails the test and is not
    recorded. *)
Lemma failed_pair_not_recorded :
  topic_to_repos (__init__ one_shared_topic_data) = [("x", ["o/A"; "o/B"])]
  ∧ shared_topics ["x"] ["x"] = 1
  ∧ ∃ st, full_graph_state (__init__ one_shared_topic_data) = Return st
          ∧ edge_key "o/A" "o/B" ∉ added_edges st.
Proof.
  split; [reflexivity|]. split; [by vm_compute|].
  assert (match full_graph_state (__init__ one_shared_topic_data) with
          | Return st => added_edges st = ∅
          | Raise _ => False
          end) as H by (vm_compute; reflexivity).
  destruct (full_graph_state (__init__ one_shared_topic_data)) as [|st]; [done|].
  exists st. split; [done|]. rewrite H. apply not_elem_of_empty.
Qed.

Lemma full_graph_edges_of_shared_pairs_witness :
  well_formed abc_data
  ∧ length (qualifying_pairs abc_data) ≤ 1000
  ∧ ∃ G, _build_full_graph (__init__ abc_data) = Return G
         ∧ has_edge G "o/A" "o/B".
Proof.
  assert (well_formed abc_data) as Hwf by compute_done.
  assert (length (qualifying_pairs abc_data) ≤ 1000) as Hq
    by (vm_compute; lia).
  split; [exact Hwf|]. split; [exact Hq|].
  destruct (full_graph_edges_of_shared_pairs abc_data) as (G & HG & _ & H).
  exists G. split; [exact HG|].
  apply (H Hwf ltac:(compute_done) Hq
           (mk_repo "o/A" ["x"; "y"]) (mk_repo "o/B" ["x"; "y"])).
  - left.
  - right. left.
  - intros [=].
  - vm_compute. lia.
Defined.

(** ** The traversal on concrete inputs *)

(** C1: on the 151 records of [wide_data] the traversal from the seed
    finalizes 151 nodes, one more than [max_nodes]. *)
Theorem wide_traversal_exceeds_max_nodes :
  ∃ G seen, ego_traversal elements_order (__init__ wide_data) "o/seed" = Return (G, seen)
            ∧ size seen = 151 ∧ max_nodes < size seen
            ∧ size (nodes G) = 151.
Proof.
  assert (match ego_traversal elements_order (__init__ wide_data) "o/seed" with
          | Return (G, seen) => size seen = 151 ∧ size (nodes G) = 151
          | Raise _ => False
          end) as H by (vm_compute; split; reflexivity).
  destruct (ego_traversal elements_order (__init__ wide_data) "o/seed")
    as [|[G seen]]; [done|].
  destruct H as [H1 H2]. exists G, seen. rewrite H1, H2.
  split; [done|]. split; [done|]. split; [|done]. unfold max_nodes. lia.
Qed.

(** C7: on the chain r0 - ... - r5 the traversal from r0 returns a graph
    whose node r5 carries no attribute: it was reached in the last round
    and never finalized. *)
Theorem chain_last_node_has_no_attrs :
  ∃ G, (_build_4level_graph elements_order "o/r0" (__init__ chain_data)).2 = Return G
       ∧ nodes G !! "o/r5" = Some no_attrs
       ∧ has_edge G "o/r4" "o/r5".
Proof.
  assert (match (_build_4level_graph elements_order "o/r0" (__init__ chain_data)).2 with
          | Return G => nodes G !! "o/r5" = Some no_attrs
                        ∧ has_edgeb G "o/r4" "o/r5" = true
          | Raise _ => False
          end) as H by (vm_compute; split; reflexivity).
  destruct (_build_4level_graph elements_order "o/r0" (__init__ chain_data)).2
    as [|G]; [done|].
  destruct H as [H1 H2]. exists G. split; [done|]. split; [done|].
  unfold has_edgeb in H2. by rewrite existsb_same_edge, <- has_edge_keys in H2.
Qed.

(** ** ActivityScorer *)

Section ActivityScorerFacts.

Import ActivityScorer.
Local Open Scope Q_scope.









End ActivityScorerFacts.


(** ** The cap of GraphBuilder on [crowded_data] *)

Lemma has_edgeb_spec (G : Graph) (u v : string) :
  has_edgeb G u v = true ↔ has_edge G u v.
Proof. unfold has_edgeb. by rewrite existsb_same_edge, has_edge_keys. Qed.

Lemma num_inj (i j : nat) : num i = num j → i = j.
Proof.
  unfold num. intros H. apply Unsigned.to_uint_inj.
  assert (Some (Nat.to_uint i) = Some (Nat.to_uint j)) as [= ->]; [|done].
  by rewrite <- !NilEmpty.usu, H.
Qed.

Lemma solo_name_inj (i j : nat) : solo_name i = solo_name j → i = j.
Proof. unfold solo_name. intros [= H]. by apply num_inj. Qed.

Lemma solo_topic_inj (i j : nat) : solo_topic i = solo_topic j → i = j.
Proof. unfold solo_topic. intros [= H]. by apply num_inj. Qed.

Lemma solo_extra_inj (i j : nat) : solo_extra i = solo_extra j → i = j.
Proof. unfold solo_extra. intros [= H]. by apply num_inj. Qed.

Lemma solo_topic_extra (i j : nat) : solo_topic i ≠ solo_extra j.
Proof. unfold solo_topic, solo_extra. intros [=]. Qed.

Lemma solo_topic_xy (i : nat) : solo_topic i ≠ "x" ∧ solo_topic i ≠ "y".
Proof. unfold solo_topic. split; intros [=]. Qed.

Lemma solo_extra_xy (i : nat) : solo_extra i ≠ "x" ∧ solo_extra i ≠ "y".
Proof. unfold solo_extra. split; intros [=]. Qed.

Lemma solo_name_pq (i : nat) : solo_name i ≠ "o/P" ∧ solo_name i ≠ "o/Q".
Proof. unfold solo_name. split; intros [=]. Qed.

Lemma dict_append_app_fresh (t name : string) (m m' : list (string * list string)) :
  t ∉ m.*1 → dict_append t name (m ++ m') = m ++ dict_append t name m'.
Proof.
  induction m as [|[k l] m IH]; [done|].
  rewrite fmap_cons, not_elem_of_cons. cbn [fst]. intros [Hne Hm].
  rewrite <- !app_comm_cons. cbn [dict_append].
  rewrite decide_False by done. by rewrite IH.
Qed.

Lemma dict_append_fresh (t name : string) (m : list (string * list string)) :
  t ∉ m.*1 → dict_append t name m = m ++ [(t, [name])].
Proof.
  intros Ht. rewrite <- (app_nil_r m) at 1. by rewrite dict_append_app_fresh.
Qed.

Lemma solo_items_keys (n : nat) (t : string) :
  t ∈ (seq 0 n ≫= solo_items).*1 →
  ∃ i, i < n ∧ (t = solo_topic i ∨ t = solo_extra i).
Proof.
  intros ([t' l] & -> & (i & Hin & Hi%elem_of_seq)%list_elem_of_bind)%list_elem_of_fmap.
  exists i. split; [lia|]. unfold solo_items in Hin.
  apply elem_of_cons in Hin as [[= -> _]|Hin]; [by left|].
  apply list_elem_of_singleton in Hin as [= -> _]. by right.
Qed.

(** The topic index of [crowded n]. *)
Lemma crowded_topic_mapping (n : nat) :
  _build_topic_mapping (crowded n)
  = (seq 0 n ≫= solo_items) ++ [("x", ["o/P"; "o/Q"]); ("y", ["o/P"; "o/Q"])].
Proof.
  unfold _build_topic_mapping, crowded. rewrite foldl_app.
  assert (foldl (fun m repo =>
                   foldl (fun m topic => dict_append topic (full_name repo) m)
                         m (topics repo)) [] (solo_repo <$> seq 0 n)
          = seq 0 n ≫= solo_items) as ->.
  { induction n as [|n IH]; [done|].
    rewrite seq_S, fmap_app, foldl_app, IH, bind_app. cbn [fmap list_fmap foldl].
    cbn [topics full_name solo_repo mk_repo Nat.add].
    assert (solo_topic n ∉ (seq 0 n ≫= solo_items).*1) as Ht.
    { intros (i & Hi & [H|H])%solo_items_keys.
      - apply solo_topic_inj in H. lia.
      - by apply solo_topic_extra in H. }
    assert (solo_extra n ∉ (seq 0 n ≫= solo_items).*1) as Hu.
    { intros (i & Hi & [H|H])%solo_items_keys.
      - symmetry in H. by apply solo_topic_extra in H.
      - apply solo_extra_inj in H. lia. }
    cbn [foldl]. rewrite (dict_append_fresh (solo_topic n) _ (seq 0 n ≫= solo_items)) by done.
    rewrite !dict_append_app_fresh by done. f_equal.
    cbn [dict_append]. rewrite decide_True by done. cbn [dict_append].
    rewrite decide_False by apply solo_topic_extra.
    cbn [dict_append]. by rewrite bind_singleton. }
  assert ("x" ∉ (seq 0 n ≫= solo_items).*1) as Hx.
  { intros (i & Hi & [H|H])%solo_items_keys; symmetry in H.
    - by apply solo_topic_xy in H.
    - by apply solo_extra_xy in H. }
  assert ("y" ∉ (seq 0 n ≫= solo_items).*1) as Hy.
  { intros (i & Hi & [H|H])%solo_items_keys; symmetry in H.
    - by apply solo_topic_xy in H.
    - by apply solo_extra_xy in H. }
  unfold pq_data. cbn [foldl topics full_name mk_repo].
  rewrite (dict_append_fresh "x" _ (seq 0 n ≫= solo_items)) by done.
  by rewrite !dict_append_app_fresh by done.
Qed.

Lemma crowded_names_NoDup (n : nat) : NoDup (full_name <$> crowded n).
Proof.
  unfold crowded. rewrite fmap_app. apply NoDup_app. split_and!.
  - rewrite <- list_fmap_compose. apply NoDup_fmap_2_strong; [|apply NoDup_seq].
    intros i j _ _ H. by apply solo_name_inj.
  - intros x (r & -> & (i & -> & _)%list_elem_of_fmap)%list_elem_of_fmap Hx.
    destruct (solo_name_pq i) as [HP HQ].
    apply elem_of_cons in Hx as [Hx|Hx]; [done|].
    by apply list_elem_of_singleton in Hx.
  - by apply NoDup_cons_2; [intros ?%list_elem_of_singleton|apply NoDup_singleton].
Qed.

Lemma crowded_lookup_solo (n i : nat) :
  i < n → repo_map (__init__ (crowded n)) !! solo_name i = Some (solo_repo i).
Proof.
  intros Hi.
  apply (repo_map_lookup_NoDup (crowded n) (solo_repo i));
    [apply crowded_names_NoDup|].
  apply elem_of_app. left. apply list_elem_of_fmap_2, elem_of_seq. lia.
Qed.

Lemma edge_key_diag (a : string) : edge_key a a = (a, a).
Proof. unfold edge_key. by destruct (String.ltb a a). Qed.

Lemma try_pair_solo (n i : nat) (st : FullState) :
  i < n → (solo_name i, solo_name i) ∉ added_edges st →
  ∃ G', try_pair (__init__ (crowded n)) (solo_name i) (solo_name i) st
        = Return {| fs_G := G';
                    added_edges := {[(solo_name i, solo_name i)]} ∪ added_edges st;
                    edge_count := edge_count st + 1 |}.
Proof.
  intros Hi Hfresh. unfold try_pair, repo_lookup.
  rewrite edge_key_diag, decide_False by done.
  rewrite crowded_lookup_solo by done. cbn [mbind Result_bind].
  rewrite decide_True; [by eexists|].
  unfold shared_topics.
  apply (size_two_elements (solo_topic i) (solo_extra i));
    [apply solo_topic_extra| |];
    apply elem_of_intersection; split; apply elem_of_list_to_set;
    cbn [topics solo_repo mk_repo];
    repeat first [by left | right].
Qed.

Lemma inner_loop_saturated (self : GitHubGraphVisualizer) (r1 : string)
  (rest : list string) (st : FullState) :
  max_edges ≤ edge_count st → inner_loop self r1 rest st = Return st.
Proof. intros Hc. destruct rest; simpl; [done|]. by rewrite decide_True. Qed.

Lemma pair_loop_saturated (self : GitHubGraphVisualizer) (repos : list string)
  (st : FullState) :
  max_edges ≤ edge_count st → pair_loop self repos st = Return st.
Proof.
  intros Hc. destruct repos; simpl; [done|].
  rewrite inner_loop_saturated by done. simpl. by rewrite decide_True.
Qed.

Lemma topic_loop_saturated (self : GitHubGraphVisualizer)
  (items : list (string * list string)) (st : FullState) :
  max_edges ≤ edge_count st → topic_loop self items st = Return st.
Proof.
  intros Hc. induction items as [|[t l] items IH]; simpl; [done|].
  by rewrite pair_loop_saturated.
Qed.

Lemma pair_loop_singleton (self : GitHubGraphVisualizer) (r : string)
  (st : FullState) :
  pair_loop self [r] st = Return st.
Proof. simpl. by case_decide. Qed.

Lemma topic_loop_app (self : GitHubGraphVisualizer)
  (l1 l2 : list (string * list string)) (st : FullState) :
  topic_loop self (l1 ++ l2) st = topic_loop self l1 st ≫= topic_loop self l2.
Proof.
  revert st. induction l1 as [|[t l] l1 IH]; intros st; simpl; [done|].
  destruct (pair_loop self _ st); simpl; [done|]. apply IH.
Qed.

Lemma solo_items_loop (n i : nat) (st : FullState) :
  i < n → edge_count st < max_edges →
  (solo_name i, solo_name i) ∉ added_edges st →
  ∃ G', topic_loop (__init__ (crowded n)) (solo_items i) st
        = Return {| fs_G := G';
                    added_edges := {[(solo_name i, solo_name i)]} ∪ added_edges st;
                    edge_count := edge_count st + 1 |}.
Proof.
  intros Hi Hc Hfresh.
  destruct (try_pair_solo n i st Hi Hfresh) as [G' HG']. exists G'.
  unfold solo_items. cbn [topic_loop length].
  rewrite !decide_False by lia.
  assert (pair_loop (__init__ (crowded n)) [solo_name i; solo_name i] st
          = Return {| fs_G := G';
                      added_edges := {[(solo_name i, solo_name i)]} ∪ added_edges st;
                      edge_count := edge_count st + 1 |}) as ->.
  { cbn [pair_loop inner_loop]. rewrite decide_False by lia.
    rewrite HG'. cbn [mbind Result_bind mret Result_ret].
    by repeat case_decide. }
  cbn [mbind Result_bind]. by rewrite pair_loop_singleton.
Qed.

Lemma solo_keys_S (i : nat) :
  solo_keys (S i) = {[(solo_name i, solo_name i)]} ∪ solo_keys i.
Proof.
  unfold solo_keys. rewrite seq_S, fmap_app, list_to_set_app_L.
  change (0 + i) with i. rewrite list_fmap_singleton, list_to_set_singleton_L.
  apply (comm_L (∪)).
Qed.

Lemma solo_keys_fresh (i j : nat) :
  i ≤ j → (solo_name j, solo_name j) ∉ solo_keys i.
Proof.
  intros Hij. unfold solo_keys. rewrite elem_of_list_to_set.
  intros (k & Heq & Hin%elem_of_seq)%list_elem_of_fmap.
  pose proof (f_equal fst Heq) as Hk. cbn [fst] in Hk.
  apply solo_name_inj in Hk. lia.
Qed.

Lemma solos_loop (n k i : nat) (st : FullState) :
  i + k ≤ n → i + k ≤ max_edges →
  edge_count st = i → added_edges st = solo_keys i →
  ∃ st', topic_loop (__init__ (crowded n)) (seq i k ≫= solo_items) st = Return st'
         ∧ edge_count st' = i + k ∧ added_edges st' = solo_keys (i + k).
Proof.
  revert i st. induction k as [|k IH]; intros i st Hn Hmax Hc Ha.
  - exists st. by replace (i + 0) with i by lia.
  - cbn [seq]. rewrite bind_cons, topic_loop_app.
    destruct (solo_items_loop n i st) as [G' ->]; [lia|lia| |].
    { rewrite Ha. by apply solo_keys_fresh. }
    cbn [mbind Result_bind].
    destruct (IH (S i) {| fs_G := G';
                          added_edges := {[(solo_name i, solo_name i)]} ∪ added_edges st;
                          edge_count := edge_count st + 1 |})
      as (st' & -> & Hc' & Ha'); [lia|lia|simpl; lia| |].
    { simpl. by rewrite Ha, solo_keys_S. }
    exists st'. split; [done|].
    by replace (i + S k) with (S i + k) by lia.
Qed.

(** A repository alone under its topics shares no topic with a record whose
    topics are all different from its own. *)
Lemma shared_solo_other (i : nat) (ts : list string) :
  (∀ t, t ∈ ts → t ≠ solo_topic i ∧ t ≠ solo_extra i) →
  shared_topics (topics (solo_repo i)) ts = 0.
Proof.
  intros Hts. unfold shared_topics. apply size_empty_iff, elem_of_equiv_empty.
  intros t [Hi Ht%elem_of_list_to_set]%elem_of_intersection.
  apply elem_of_list_to_set in Hi. destruct (Hts t Ht) as [H1 H2].
  cbn [topics solo_repo mk_repo] in Hi.
  repeat (apply elem_of_cons in Hi as [Hi|Hi]; [done|]).
  by apply elem_of_nil in Hi.
Qed.

Lemma shared_solo_later (i k : nat) (r : Repo) :
  r ∈ (solo_repo <$> seq (S i) k) ++ pq_data →
  ¬ 2 ≤ shared_topics (topics (solo_repo i)) (topics r).
Proof.
  intros Hr. rewrite shared_solo_other; [lia|]. intros t Ht.
  apply elem_of_app in Hr as [(j & -> & Hj%elem_of_seq)%list_elem_of_fmap|Hr].
  - cbn [topics solo_repo mk_repo] in Ht.
    assert (t = solo_topic j ∨ t = solo_extra j) as [-> | ->].
    { repeat (apply elem_of_cons in Ht as [Ht|Ht]; [by auto|]).
      by apply elem_of_nil in Ht. }
    + split; [|apply solo_topic_extra].
      intros H%solo_topic_inj. lia.
    + split; [intros H; symmetry in H; by apply solo_topic_extra in H|].
      intros H%solo_extra_inj. lia.
  - assert (t = "x" ∨ t = "y") as Hxy.
    { unfold pq_data in Hr.
      repeat (apply elem_of_cons in Hr as [-> |Hr];
              [cbn [topics mk_repo] in Ht;
               repeat (apply elem_of_cons in Ht as [Ht|Ht]; [by auto|]);
               by apply elem_of_nil in Ht|]).
      by apply elem_of_nil in Hr. }
    destruct (solo_topic_xy i), (solo_extra_xy i).
    destruct Hxy as [-> | ->]; split; congruence.
Qed.

Lemma filter_none {A : Type} (P : A → Prop) `{∀ x, Decision (P x)} (l : list A) :
  (∀ x, x ∈ l → ¬ P x) → filter P l = [].
Proof.
  induction l as [|x l IH]; intros Hl; [done|].
  rewrite filter_cons_False by (apply Hl; left).
  apply IH. intros y Hy. apply Hl. by right.
Qed.

Lemma qualifying_pairs_solos (i n : nat) :
  qualifying_pairs ((solo_repo <$> seq i n) ++ pq_data) = qualifying_pairs pq_data.
Proof.
  unfold qualifying_pairs. revert i.
  induction n as [|n IH]; intros i; [done|].
  cbn [seq fmap list_fmap app ordered_pairs].
  rewrite filter_app, IH. rewrite filter_none; [done|].
  intros p (r & -> & Hr)%list_elem_of_fmap. cbn [fst snd].
  by eapply shared_solo_later.
Qed.

(** C5 (as stated) fails: in [crowded_data] the names are pairwise
    different, every topic indexes 1 or 2 entries and a single pair, P and
    Q, shares 2 topics or more; each of the 1000 repositories that list a
    topic twice is joined to itself, these self-loops use up the cap of 1000
    edges, and P and Q are left without an edge. *)
Lemma crowded_pair_left_out :
  NoDup (full_name <$> crowded_data)
  ∧ Forall (fun item : string * list string => length item.2 ≤ 8)
           (topic_to_repos (__init__ crowded_data))
  ∧ length (qualifying_pairs crowded_data) ≤ 1000
  ∧ mk_repo "o/P" ["x"; "y"] ∈ crowded_data
  ∧ mk_repo "o/Q" ["x"; "y"] ∈ crowded_data
  ∧ 2 ≤ shared_topics ["x"; "y"] ["x"; "y"]
  ∧ ∃ G, _build_full_graph (__init__ crowded_data) = Return G
         ∧ length (edges G) = 1000
         ∧ ¬ has_edge G "o/P" "o/Q".
Proof.
  unfold crowded_data. split_and!.
  - apply crowded_names_NoDup.
  - cbn [topic_to_repos __init__]. rewrite crowded_topic_mapping.
    apply Forall_app. split.
    + apply Forall_bind, Forall_forall. intros i _.
      unfold solo_items. repeat constructor; simpl; lia.
    + repeat constructor; simpl; lia.
  - unfold crowded. rewrite qualifying_pairs_solos. vm_compute. lia.
  - apply elem_of_app. right. left.
  - apply elem_of_app. right. right. left.
  - vm_compute. lia.
  - destruct (full_graph_state_inv (crowded 1000)) as (st & Hst & Hinv).
    exists (fs_G st). unfold _build_full_graph. rewrite Hst.
    split; [done|].
    revert Hst. unfold full_graph_state.
    cbn [topic_to_repos repo_data __init__].
    rewrite crowded_topic_mapping, topic_loop_app.
    destruct (solos_loop 1000 1000 0
                {| fs_G := full_graph_nodes (crowded 1000);
                   added_edges := ∅; edge_count := 0 |})
      as (st' & -> & Hc & Ha); [done|done|done|done|].
    cbn [mbind Result_bind].
    rewrite topic_loop_saturated by (rewrite Hc; done).
    intros [= ->]. split.
    + by rewrite <- (inv_count _ _ Hinv), Hc.
    + rewrite has_edge_keys, <- (inv_added _ _ Hinv), Ha.
      change (edge_key "o/P" "o/Q") with ("o/P", "o/Q").
      unfold solo_keys. rewrite elem_of_list_to_set.
      intros (j & Heq & _)%list_elem_of_fmap.
      pose proof (f_equal fst Heq) as Hj. cbn [fst] in Hj.
      symmetry in Hj. by apply solo_name_pq in Hj.
Qed.

(** * Further properties of the code *)

(** ** GraphBuilder: the node table and the fan-out cap *)

Lemma full_graph_nodes_table (data : list Repo) :
  nodes (full_graph_nodes data) = record_attrs <$> repo_map (__init__ data).
Proof.
  unfold full_graph_nodes. cbn [repo_map __init__].
  induction data as [|x data IH] using rev_ind; [symmetry; apply fmap_empty|].
  rewrite !foldl_app. cbn [foldl]. unfold add_node at 1. cbn [nodes].
  rewrite IH, fmap_insert. f_equal.
  rewrite lookup_fmap.
  by destruct (foldl _ ∅ data !! full_name x).
Qed.

Lemma ensure_node_present (n : string) (ns : gmap string Attrs) :
  is_Some (ns !! n) → ensure_node n ns = ns.
Proof. intros [a Ha]. unfold ensure_node. by rewrite Ha. Qed.

Lemma try_pair_nodes (self : GitHubGraphVisualizer) (N0 : gmap string Attrs)
  (r1 r2 : string) (st : FullState) :
  (∀ n, known self n → is_Some (N0 !! n)) →
  known_pair self r1 r2 → nodes (fs_G st) = N0 →
  ∃ st', try_pair self r1 r2 st = Return st' ∧ nodes (fs_G st') = N0.
Proof.
  intros HN [H1 H2] Hst. unfold try_pair, repo_lookup.
  case_decide; [by eauto|].
  destruct H1 as [ru Hu], H2 as [rv Hv]. rewrite Hu, Hv. simpl.
  case_decide; [|by eauto]. eexists. split; [done|]. simpl.
  rewrite Hst, (ensure_node_present r1) by (apply HN; by eexists).
  apply ensure_node_present, HN. by eexists.
Qed.

Lemma full_graph_state_nodes (data : list Repo) :
  ∃ st, full_graph_state (__init__ data) = Return st
        ∧ nodes (fs_G st) = record_attrs <$> repo_map (__init__ data).
Proof.
  unfold full_graph_state.
  apply (topic_loop_P (__init__ data)
           (fun st => nodes (fs_G st) = record_attrs <$> repo_map (__init__ data))
           (known_pair (__init__ data))).
  - intros r1 r2 st Hk Hst _. apply try_pair_nodes; [|done|done].
    intros n [r Hr]. by rewrite lookup_fmap, Hr.
  - apply topic_items_known.
  - apply full_graph_nodes_table.
Qed.

(** X1: the node table of the graph of GraphBuilder is the repository map
    with each record replaced by its activity, star and lang attributes (and
    no level): every name of the input is a node, isolated or not, edges add
    no node, and a name given by several records carries the attributes of
    the last one. *)
Theorem full_graph_node_table (data : list Repo) :
  ∃ G, _build_full_graph (__init__ data) = Return G
       ∧ nodes G = record_attrs <$> repo_map (__init__ data).
Proof.
  destruct (full_graph_state_nodes data) as (st & Hst & Hnodes).
  exists (fs_G st). unfold _build_full_graph. by rewrite Hst.
Qed.

Lemma repo_map_size (data : list Repo) :
  NoDup (full_name <$> data) → size (repo_map (__init__ data)) = length data.
Proof.
  cbn [repo_map __init__].
  induction data as [|x data IH] using rev_ind; intros Hn; [done|].
  rewrite fmap_app in Hn. apply NoDup_app in Hn as (Hn & Hfresh & _).
  rewrite foldl_app, length_app. cbn [foldl length].
  rewrite map_size_insert_None; [rewrite IH by done; lia|].
  destruct (foldl _ ∅ data !! full_name x) as [r|] eqn:Hr; [|done].
  apply (repo_map_lookup_Some data) in Hr as [Hin Heq].
  exfalso. apply (Hfresh (full_name x)); [|left].
  rewrite <- Heq. by apply list_elem_of_fmap_2.
Qed.

(** X2: when the records have pairwise different names, the graph of
    GraphBuilder has exactly as many nodes as there are records. *)
Theorem full_graph_node_count (data : list Repo) :
  NoDup (full_name <$> data) →
  ∃ G, _build_full_graph (__init__ data) = Return G
       ∧ size (nodes G) = length data.
Proof.
  intros Hn. destruct (full_graph_state_nodes data) as (st & Hst & Hnodes).
  exists (fs_G st). unfold _build_full_graph. rewrite Hst. split; [done|].
  by rewrite Hnodes, map_size_fmap, repo_map_size.
Qed.

Lemma full_graph_node_count_witness :
  NoDup (full_name <$> abc_data)
  ∧ ∃ G, _build_full_graph (__init__ abc_data) = Return G
         ∧ size (nodes G) = length abc_data.
Proof.
  assert (NoDup (full_name <$> abc_data)) as Hn by compute_done.
  split; [exact Hn|]. exact (full_graph_node_count abc_data Hn).
Defined.

Lemma topic_loop_fan_out (self : GitHubGraphVisualizer) (P : FullState → Prop)
  (R : string → string → Prop) (items : list (string * list string))
  (st : FullState) :
  (∀ r1 r2 st, R r1 r2 → P st → edge_count st < max_edges →
               ∃ st', try_pair self r1 r2 st = Return st' ∧ P st') →
  (∀ t l, (t, l) ∈ items → all_pairs R (take 8 l)) → P st →
  ∃ st', topic_loop self items st = Return st' ∧ P st'.
Proof.
  intros Htry. revert st.
  induction items as [|[t l] items IH]; intros st Hall Hst; simpl; [by eauto|].
  assert ((if decide (8 < length l) then take 8 l else l) = take 8 l) as ->.
  { case_decide; [done|]. rewrite take_ge; [done|lia]. }
  destruct (pair_loop_P self P R Htry (take 8 l) st) as (st1 & -> & Hst1);
    [apply (Hall t); left|done|].
  simpl. apply IH; [|done]. intros t' l' Hin. apply (Hall t'). by right.
Qed.

Lemma all_pairs_intro (R : string → string → Prop) (l : list string) :
  (∀ a b, a ∈ l → b ∈ l → R a b) → all_pairs R l.
Proof.
  induction l as [|a l IH]; intros HR; simpl; [done|]. split.
  - apply Forall_forall. intros b Hb. apply HR; [left|by right].
  - apply IH. intros x y Hx Hy. apply HR; by right.
Qed.

Lemma within_fan_out_sym (self : GitHubGraphVisualizer) (u v : string) :
  within_fan_out self u v → within_fan_out self v u.
Proof. intros (t & l & ? & ? & ?). by exists t, l. Qed.

(** X3: GraphBuilder only joins two names that stand together among the
    first 8 entries of the list of some topic: a repository listed from the
    9th position on under every topic it has gets no edge. *)
Theorem full_graph_edges_within_fan_out (data : list Repo) :
  ∃ G, _build_full_graph (__init__ data) = Return G
       ∧ ∀ u v w, (u, v, w) ∈ edges G → within_fan_out (__init__ data) u v.
Proof.
  destruct (topic_loop_fan_out (__init__ data)
              (fun st => ∀ u v w, (u, v, w) ∈ edges (fs_G st) →
                                  within_fan_out (__init__ data) u v)
              (fun a b => known_pair (__init__ data) a b
                          ∧ within_fan_out (__init__ data) a b)
              (topic_to_repos (__init__ data))
              {| fs_G := full_graph_nodes (repo_data (__init__ data));
                 added_edges := ∅; edge_count := 0 |})
    as (st & Hst & Hedges).
  - intros r1 r2 st [[[ru Hu] [rv Hv]] Hf] Hst _.
    unfold try_pair, repo_lookup. case_decide; [by eauto|].
    rewrite Hu, Hv. simpl. case_decide; [|by eauto].
    eexists. split; [done|]. simpl.
    intros u v w [Hin|[_ [[-> ->]|[-> ->]]]]%elem_of_add_edge;
      [by eapply Hst|done|by apply within_fan_out_sym].
  - intros t l Hin. apply all_pairs_and.
    + assert (all_pairs (known_pair (__init__ data)) l) as Hl
        by by eapply topic_items_known.
      clear -Hl. generalize 8. induction l as [|a l IHl]; intros [|n]; simpl;
        try done.
      destruct Hl as [Ha Hl]. split; [by apply Forall_take|by apply IHl].
    + apply all_pairs_intro. intros a b Ha Hb. by exists t, l.
  - simpl. rewrite full_graph_nodes_edges. by intros u v w ?%elem_of_nil.
  - exists (fs_G st). unfold _build_full_graph, full_graph_state.
    by rewrite Hst.
Qed.

(** ** The topic index: its keys *)

Lemma first_seen_snoc (l : list string) (t : string) :
  first_seen (l ++ [t]) = if decide (t ∈ l) then first_seen l else first_seen l ++ [t].
Proof.
  unfold first_seen. rewrite reverse_snoc. cbn [remove_dups].
  destruct (decide_rel elem_of t (reverse l)) as [Hin|Hin];
    rewrite elem_of_reverse in Hin.
  - by rewrite decide_True.
  - by rewrite decide_False, reverse_cons.
Qed.

Lemma elem_of_first_seen (l : list string) (t : string) :
  t ∈ first_seen l ↔ t ∈ l.
Proof.
  unfold first_seen. by rewrite elem_of_reverse, elem_of_remove_dups, elem_of_reverse.
Qed.

Lemma topic_mapping_keys_from (pairs : list (string * string)) :
  (foldl (fun m p => dict_append p.1 p.2 m) [] pairs).*1 = first_seen pairs.*1.
Proof.
  induction pairs as [|[t n] pairs IH] using rev_ind; [done|].
  rewrite foldl_app, fmap_app. cbn [foldl fmap list_fmap fst snd].
  rewrite dict_append_keys, first_seen_snoc, IH.
  destruct (decide (t ∈ first_seen pairs.*1)) as [Hin|Hin];
    rewrite elem_of_first_seen in Hin.
  - by rewrite decide_True.
  - by rewrite decide_False.
Qed.

Lemma build_topic_mapping_pairs (data : list Repo) :
  _build_topic_mapping data
  = foldl (fun m p => dict_append p.1 p.2 m) []
          (data ≫= fun repo => (fun t => (t, full_name repo)) <$> topics repo).
Proof.
  unfold _build_topic_mapping. generalize ([] : list (string * list string)).
  induction data as [|repo data IH]; intros m; [done|].
  cbn [foldl]. rewrite bind_cons, foldl_app, IH. f_equal.
  generalize m. clear. induction (topics repo) as [|t ts IHt]; intros m; [done|].
  cbn [foldl fmap list_fmap fst snd]. apply IHt.
Qed.

(** X4: the keys of the topic index are the distinct topics of the records
    in the order of their first occurrence (records in input order, topics
    in the order each record lists them); the list of a key is never empty,
    and asking for a topic that no record has gives the empty list. *)
Theorem topic_index_keys (data : list Repo) :
  (_build_topic_mapping data).*1 = first_seen (data ≫= topics)
  ∧ (∀ t l, (t, l) ∈ _build_topic_mapping data → l ≠ [])
  ∧ (∀ t, (∀ repo, repo ∈ data → t ∉ topics repo) →
          dict_get t (_build_topic_mapping data) = []).
Proof.
  split_and!.
  - rewrite build_topic_mapping_pairs, topic_mapping_keys_from. f_equal.
    induction data as [|repo data IH]; [done|].
    rewrite !bind_cons, fmap_app, IH. f_equal.
    rewrite <- list_fmap_compose. apply list_fmap_id.
  - intros t l Hin Hl.
    assert (t ∈ (_build_topic_mapping data).*1) as Hkey
      by (by apply (list_elem_of_fmap_2 fst) in Hin).
    rewrite build_topic_mapping_pairs, topic_mapping_keys_from in Hkey.
    apply elem_of_first_seen in Hkey
      as ([t' n] & -> & (repo & Hp & Hrepo)%list_elem_of_bind)%list_elem_of_fmap.
    apply list_elem_of_fmap in Hp as (t'' & [= -> ->] & Ht).
    assert (full_name repo ∈ dict_get t'' (_build_topic_mapping data)) as Hn
      by (apply elem_of_topic_list; by exists repo).
    rewrite <- (topic_item_list data t'' l Hin), Hl in Hn.
    by apply elem_of_nil in Hn.
  - intros t Ht.
    destruct (dict_get t (_build_topic_mapping data)) as [|n l] eqn:Hl; [done|].
    assert (n ∈ dict_get t (_build_topic_mapping data)) as Hn
      by (rewrite Hl; left).
    apply elem_of_topic_list in Hn as (repo & Hrepo & _ & Hin).
    by apply Ht in Hin.
Qed.

(** ** EgoNetworkBuilder: what the rounds do to the graph *)

Section EgoGraphInduction.

Variable self : GitHubGraphVisualizer.
Variable P : Graph → Prop.

Hypothesis P_add_node : ∀ G n repo lvl,
  P G → repo_map self !! n = Some repo → lvl ≤ levels →
  P (add_node n (finalized_attrs repo lvl) G).
Hypothesis P_add_edge : ∀ G u v,
  P G → candidate_of self u v → P (add_edge u v 1 G).

Lemma visit_candidates_P (repo_name : string) (l : list string) (st : EgoState) :
  Forall (candidate_of self repo_name) l → P (eg_G st) →
  P (eg_G (foldl (visit_candidate repo_name) st l)).
Proof.
  intros Hl. revert st. induction Hl as [|rr l Hrr _ IH]; intros st Hst; [done|].
  cbn [foldl]. apply IH. unfold visit_candidate. case_decide; [|done].
  cbn [eg_G]. by apply P_add_edge.
Qed.

Lemma expand_topics_P (repo_name : string) (repo : Repo) (ts : list string)
  (st : EgoState) :
  repo_map self !! repo_name = Some repo →
  Forall (fun t => t ∈ take 5 (topics repo)) ts → P (eg_G st) →
  P (eg_G (foldl (expand_topic self repo_name) st ts)).
Proof.
  intros Hrepo Hts. revert st.
  induction Hts as [|t ts Ht _ IH]; intros st Hst; [done|].
  cbn [foldl]. apply IH. unfold expand_topic. apply visit_candidates_P; [|done].
  apply Forall_forall. intros rr Hrr. by exists repo, t.
Qed.

Lemma process_repo_P (lvl : nat) (st st' : EgoState) (x : string) :
  lvl ≤ levels → process_repo self lvl st x = Return st' →
  P (eg_G st) → P (eg_G st').
Proof.
  intros Hlvl. unfold process_repo, repo_lookup.
  case_decide; [by intros [= <-]|].
  destruct (repo_map self !! x) as [repo|] eqn:Hrepo; [|done]. simpl.
  intros [= <-] Hst. apply (expand_topics_P x repo); [done| |].
  - by apply Forall_forall.
  - cbn [eg_G]. by apply P_add_node.
Qed.

Lemma round_foldlM_P (lvl : nat) (l : list string) (st st' : EgoState) :
  lvl ≤ levels → foldlM (process_repo self lvl) st l = Return st' →
  P (eg_G st) → P (eg_G st').
Proof.
  intros Hlvl. revert st. induction l as [|x l IH]; intros st; simpl.
  - by intros [= <-].
  - destruct (process_repo self lvl st x) as [|st1] eqn:Hst1; simpl; [done|].
    intros Hst' Hst. eapply IH; [done|]. by eapply process_repo_P.
Qed.

Lemma level_loop_P (set_order : nat → gset string → list string)
  (rounds : list nat) (G G' : Graph) (seen seen' cur : gset string) :
  Forall (fun lvl => lvl ≤ levels) rounds →
  level_loop set_order self rounds G seen cur = Return (G', seen') →
  P G → P G'.
Proof.
  intros Hrounds. revert G seen cur.
  induction Hrounds as [|lvl rounds Hlvl _ IH]; intros G seen cur; simpl.
  - by intros [= <- _].
  - case_decide; [by intros [= <- _]|].
    destruct (foldlM _ _ _) as [|st] eqn:Hst; simpl; [done|].
    intros HG' HG. eapply IH; [done|].
    by apply (round_foldlM_P _ _ _ _ Hlvl Hst).
Qed.

(** A property of graphs that holds of the empty graph and is kept by the
    two updates of the traversal holds of its result. *)
Lemma ego_graph_ind (set_order : nat → gset string → list string)
  (start_repo : string) (G : Graph) (seen : gset string) :
  P empty_graph →
  ego_traversal set_order self start_repo = Return (G, seen) → P G.
Proof.
  intros H0 HG. eapply level_loop_P; [|exact HG|exact H0].
  apply Forall_forall. intros lvl Hlvl%elem_of_seq. unfold levels in *. lia.
Qed.

End EgoGraphInduction.

(** X5: every node of the graph of EgoNetworkBuilder, finalized or only
    reached, is a key of the repository map, for any enumeration order of
    the frontiers. *)
Theorem ego_nodes_are_known (data : list Repo)
  (set_order : nat → gset string → list string) (start_repo : string) :
  (∀ L X, set_order L X ≡ₚ elements X) →
  is_Some (repo_map (__init__ data) !! start_repo) →
  ∃ G, (_build_4level_graph set_order start_repo (__init__ data)).2 = Return G
       ∧ ∀ n, is_Some (nodes G !! n) → is_Some (repo_map (__init__ data) !! n).
Proof.
  intros Hperm Hseed.
  destruct (ego_traversal_inv (__init__ data) set_order
              (topic_lists_known_init data) Hperm start_repo Hseed)
    as (G & seen & HG & _).
  exists G. unfold _build_4level_graph. destruct Hseed as [r ->].
  cbn [snd]. rewrite HG. split; [done|].
  apply (ego_graph_ind (__init__ data)
           (fun G => ∀ n, is_Some (nodes G !! n) → known (__init__ data) n))
    with (set_order := set_order) (start_repo := start_repo) (seen := seen);
    [| | |done].
  - intros G0 n repo lvl HG0 Hrepo _ m. rewrite add_node_nodes.
    case_decide; [subst; by eexists|apply HG0].
  - intros G0 u v HG0 (repo & t & Hrepo & Ht & Hv) m.
    rewrite add_edge_nodes.
    destruct (nodes G0 !! m) eqn:Hm; [intros _; apply HG0; by rewrite Hm|].
    case_decide as Hor; [|by intros [? ?]]. intros _.
    destruct Hor as [-> | ->]; [by eexists|].
    pose proof (topic_lists_known_init data t) as Hall.
    rewrite Forall_forall in Hall. apply Hall.
    apply elem_of_take in Hv as (i & Hi & _). by eapply list_elem_of_lookup_2.
  - intros n. rewrite empty_graph_nodes. by intros [? ?].
Qed.

Lemma ego_nodes_are_known_witness :
  (∀ L X, elements_order L X ≡ₚ elements X)
  ∧ is_Some (repo_map (__init__ chain_data) !! "o/r0")
  ∧ ∃ G, (_build_4level_graph elements_order "o/r0" (__init__ chain_data)).2 = Return G
         ∧ ∀ n, is_Some (nodes G !! n) → is_Some (repo_map (__init__ chain_data) !! n).
Proof.
  assert (∀ L X, elements_order L X ≡ₚ elements X) as Hperm
    by (intros L X; reflexivity).
  assert (is_Some (repo_map (__init__ chain_data) !! "o/r0")) as Hseed
    by compute_done.
  split; [exact Hperm|]. split; [exact Hseed|].
  exact (ego_nodes_are_known chain_data elements_order "o/r0" Hperm Hseed).
Defined.

(** X6: every edge of the graph of EgoNetworkBuilder has weight 1 and joins
    a repository to one of the first 5 entries under one of its first 5
    topics: a neighbour reachable only through a 6th topic, or listed 6th or
    later under a topic, is never joined. *)
Theorem ego_edges_are_candidates (data : list Repo)
  (set_order : nat → gset string → list string) (start_repo : string) :
  (∀ L X, set_order L X ≡ₚ elements X) →
  is_Some (repo_map (__init__ data) !! start_repo) →
  ∃ G, (_build_4level_graph set_order start_repo (__init__ data)).2 = Return G
       ∧ ∀ u v w, (u, v, w) ∈ edges G →
           w = 1%Z ∧ (candidate_of (__init__ data) u v
                      ∨ candidate_of (__init__ data) v u).
Proof.
  intros Hperm Hseed.
  destruct (ego_traversal_inv (__init__ data) set_order
              (topic_lists_known_init data) Hperm start_repo Hseed)
    as (G & seen & HG & _).
  exists G. unfold _build_4level_graph. destruct Hseed as [r ->].
  cbn [snd]. rewrite HG. split; [done|].
  apply (ego_graph_ind (__init__ data)
           (fun G => ∀ u v w, (u, v, w) ∈ edges G →
              w = 1%Z ∧ (candidate_of (__init__ data) u v
                         ∨ candidate_of (__init__ data) v u)))
    with (set_order := set_order) (start_repo := start_repo) (seen := seen);
    [| | |done].
  - intros G0 n repo lvl HG0 _ _. apply HG0.
  - intros G0 a b HG0 Hc u v w
      [Hin|[-> [[-> ->]|[-> ->]]]]%elem_of_add_edge; auto.
  - by intros u v w ?%elem_of_nil.
Qed.

Lemma ego_edges_are_candidates_witness :
  (∀ L X, elements_order L X ≡ₚ elements X)
  ∧ is_Some (repo_map (__init__ chain_data) !! "o/r0")
  ∧ ∃ G, (_build_4level_graph elements_order "o/r0" (__init__ chain_data)).2 = Return G
         ∧ ∀ u v w, (u, v, w) ∈ edges G →
             w = 1%Z ∧ (candidate_of (__init__ chain_data) u v
                        ∨ candidate_of (__init__ chain_data) v u).
Proof.
  assert (∀ L X, elements_order L X ≡ₚ elements X) as Hperm
    by (intros L X; reflexivity).
  assert (is_Some (repo_map (__init__ chain_data) !! "o/r0")) as Hseed
    by compute_done.
  split; [exact Hperm|]. split; [exact Hseed|].
  exact (ego_edges_are_candidates chain_data elements_order "o/r0" Hperm Hseed).
Defined.

(** X7: from a seed whose record has no topic the traversal returns the
    graph made of the seed alone, at level 0, without edges. *)
Theorem ego_seed_without_topics (self : GitHubGraphVisualizer)
  (set_order : nat → gset string → list string) (start_repo : string)
  (repo : Repo) :
  (∀ L X, set_order L X ≡ₚ elements X) →
  repo_map self !! start_repo = Some repo → topics repo = [] →
  (_build_4level_graph set_order start_repo self).2
  = Return (add_node start_repo (finalized_attrs repo 0) empty_graph).
Proof.
  intros Hperm Hrepo Hts. unfold _build_4level_graph. rewrite Hrepo.
  cbn [snd]. unfold ego_traversal. change (levels + 1) with 5.
  cbn [seq level_loop]. rewrite decide_False; last first.
  { intros [H|H]; [|rewrite size_empty in H; unfold max_nodes in H; lia].
    by apply (non_empty_singleton_L start_repo) in H. }
  assert (set_order 0 {[start_repo]} = [start_repo]) as ->.
  { apply Permutation_singleton_r. by rewrite Hperm, elements_singleton. }
  cbn [foldlM]. unfold process_repo, repo_lookup.
  rewrite decide_False by apply not_elem_of_empty.
  rewrite Hrepo. cbn [mbind Result_bind mret Result_ret]. rewrite Hts.
  cbn [mbind Result_bind mret Result_ret take foldl eg_G visited next_level].
  by rewrite decide_True by by left.
Qed.

Lemma ego_seed_without_topics_witness :
  (∀ L X, elements_order L X ≡ₚ elements X)
  ∧ (_build_4level_graph elements_order "o/lonely"
       (__init__ [mk_repo "o/lonely" []; mk_repo "o/other" ["x"]])).2
    = Return (add_node "o/lonely" (finalized_attrs (mk_repo "o/lonely" []) 0)
                       empty_graph).
Proof.
  assert (∀ L X, elements_order L X ≡ₚ elements X) as Hperm
    by (intros L X; reflexivity).
  split; [exact Hperm|].
  apply (ego_seed_without_topics _ elements_order "o/lonely"
           (mk_repo "o/lonely" []) Hperm); reflexivity.
Defined.

(** ** [_plot_graph]: node styles *)

Lemma node_size_bounds (a : Q) : (200 <= node_size a)%Q ∧ (node_size a <= 1000)%Q.
Proof.
  unfold node_size. split; [apply Q.le_max_r|].
  apply Q.max_lub; [apply Q.le_min_r|done].
Qed.

Lemma style_node_lenient_eq (b : bool) (acc : NodeStyles) (item : string * Attrs) :
  styleable b item.2 →
  style_node b acc item = Return (style_node_lenient b acc item).
Proof.
  intros ([a Ha] & [l Hl] & Hs). unfold style_node, style_node_lenient.
  rewrite Ha, Hl. simpl. destruct b; simpl; [done|].
  destruct (Hs eq_refl) as [s ->]. done.
Qed.

Lemma style_node_Return (b : bool) (acc s : NodeStyles) (item : string * Attrs) :
  style_node b acc item = Return s → styleable b item.2.
Proof.
  unfold style_node, styleable.
  destruct (activity item.2); [|done]. destruct (lang item.2); [|done].
  simpl. destruct b; simpl.
  - intros _. split_and!; [by eexists|by eexists|done].
  - destruct (star item.2); [|done]. intros _.
    split_and!; by eexists.
Qed.

Lemma node_styles_from (b : bool) (items : list (string * Attrs)) (acc : NodeStyles) :
  Forall (fun item => styleable b item.2) items →
  foldlM (style_node b) acc items = Return (foldl (style_node_lenient b) acc items).
Proof.
  intros Hall. revert acc. induction Hall as [|item items Hit _ IH]; intros acc;
    [done|].
  cbn [foldlM foldl]. rewrite style_node_lenient_eq by done. apply IH.
Qed.

Lemma node_styles_from_Return (b : bool) (items : list (string * Attrs))
  (acc s : NodeStyles) :
  foldlM (style_node b) acc items = Return s →
  Forall (fun item => styleable b item.2) items.
Proof.
  revert acc. induction items as [|item items IH]; intros acc; [by constructor|].
  cbn [foldlM]. destruct (style_node b acc item) as [|s1] eqn:Hs1; [done|].
  simpl. intros Hs. constructor; [by eapply style_node_Return|by eapply IH].
Qed.


Lemma lenient_sizes (b : bool) (items : list (string * Attrs)) (acc : NodeStyles) :
  node_sizes (foldl (style_node_lenient b) acc items)
  = node_sizes acc ++ ((fun item : string * Attrs =>
                          node_size (default 0%Q (activity item.2))) <$> items)
  ∧ node_colors (foldl (style_node_lenient b) acc items)
    = node_colors acc ++ ((fun item : string * Attrs =>
                             language_color (default "Unknown" (lang item.2))) <$> items).
Proof.
  revert acc. induction items as [|item items IH]; intros acc.
  - by rewrite !app_nil_r.
  - cbn [foldl fmap list_fmap]. destruct (IH (style_node_lenient b acc item)) as [-> ->].
    cbn [style_node_lenient node_sizes node_colors]. by rewrite <- !app_assoc.
Qed.

Lemma lenient_styles_shape (b : bool) (items : list (string * Attrs)) :
  length (node_sizes (node_styles_lenient b items)) = length items
  ∧ length (node_colors (node_styles_lenient b items)) = length items
  ∧ Forall (fun x => (200 <= x)%Q ∧ (x <= 1000)%Q)
           (node_sizes (node_styles_lenient b items)).
Proof.
  unfold node_styles_lenient.
  destruct (lenient_sizes b items no_styles) as [-> ->].
  cbn [no_styles node_sizes node_colors app]. rewrite !length_fmap.
  split_and!; [done|done|].
  apply Forall_fmap, Forall_forall. intros item _. apply node_size_bounds.
Qed.

(** X9: when the strict loop of [_plot_graph] succeeds, it has produced one
    size and one colour per node, and every size lies between 200 and 1000
    whatever the activity of the node. *)
Theorem node_styles_sizes (b : bool) (items : list (string * Attrs)) (s : NodeStyles) :
  node_styles b items = Return s →
  length (node_sizes s) = length items
  ∧ length (node_colors s) = length items
  ∧ Forall (fun x => (200 <= x)%Q ∧ (x <= 1000)%Q) (node_sizes s).
Proof.
  intros Hs. unfold node_styles in Hs.
  rewrite node_styles_from in Hs by by eapply node_styles_from_Return.
  injection Hs as <-. apply lenient_styles_shape.
Qed.

Lemma node_styles_sizes_witness :
  ∃ s, node_styles false [("o/A", record_attrs (mk_repo "o/A" ["x"]))] = Return s
       ∧ length (node_sizes s) = 1
       ∧ Forall (fun x => (200 <= x)%Q ∧ (x <= 1000)%Q) (node_sizes s).
Proof.
  eexists. split; [reflexivity|].
  destruct (node_styles_sizes false [("o/A", record_attrs (mk_repo "o/A" ["x"]))]
              _ eq_refl) as (H1 & _ & H3).
  split; [exact H1|exact H3].
Defined.

(** ** [_plot_graph]: labels *)

Lemma shown_labelled (b : bool) (a : Attrs) :
  b || bool_decide (150000 < default 0 (star a))%Z = true ↔ labelled b a.
Proof.
  unfold labelled. destruct b; simpl; [by split; [left|]|].
  rewrite bool_decide_eq_true. split.
  - destruct (star a) as [s|]; simpl; [right; by exists s|lia].
  - intros [?|(s & -> & Hs)]; done.
Qed.

Lemma lenient_labels_keep (b : bool) (items : list (string * Attrs))
  (acc : NodeStyles) (n : string) :
  labels acc !! n = Some (node_label n) →
  labels (foldl (style_node_lenient b) acc items) !! n = Some (node_label n).
Proof.
  revert acc. induction items as [|item items IH]; intros acc Hacc; [done|].
  cbn [foldl]. apply IH. cbn [style_node_lenient labels].
  destruct (b || _); [|done].
  rewrite lookup_insert. case_decide; by subst.
Qed.

Lemma lenient_labels_intro (b : bool) (items : list (string * Attrs))
  (acc : NodeStyles) (n : string) (a : Attrs) :
  (n, a) ∈ items → labelled b a →
  labels (foldl (style_node_lenient b) acc items) !! n = Some (node_label n).
Proof.
  intros Hin Hl. revert acc.
  induction items as [|item items IH]; intros acc; [by apply elem_of_nil in Hin|].
  cbn [foldl]. apply elem_of_cons in Hin as [<-|Hin]; [|by apply IH].
  apply lenient_labels_keep. cbn [style_node_lenient labels fst snd].
  apply shown_labelled in Hl. rewrite Hl. by rewrite lookup_insert, decide_True.
Qed.

Lemma lenient_labels_elim (b : bool) (items : list (string * Attrs))
  (acc : NodeStyles) (n lab : string) :
  labels (foldl (style_node_lenient b) acc items) !! n = Some lab →
  labels acc !! n = Some lab
  ∨ (lab = node_label n ∧ ∃ a, (n, a) ∈ items ∧ labelled b a).
Proof.
  revert acc. induction items as [|item items IH]; intros acc; [by left|].
  cbn [foldl]. intros [Hacc|(-> & a & Hin & Hl)]%IH.
  - cbn [style_node_lenient labels] in Hacc.
    destruct (b || _) eqn:Hshow; [|by left].
    rewrite lookup_insert in Hacc. case_decide as Hn; [|by left].
    right. injection Hacc as <-. subst n. split; [done|].
    exists item.2. split; [destruct item; left|by apply shown_labelled].
  - right. split; [done|]. exists a. split; [by right|done].
Qed.

Lemma styles_labels_lookup (b : bool) (items : list (string * Attrs))
  (s : NodeStyles) (n lab : string) :
  node_styles b items = Return s →
  labels s !! n = Some lab
  ↔ lab = node_label n ∧ ∃ a, (n, a) ∈ items ∧ labelled b a.
Proof.
  intros Hs. unfold node_styles in Hs.
  rewrite node_styles_from in Hs by by eapply node_styles_from_Return.
  injection Hs as <-. split.
  - intros [Hacc|H]%lenient_labels_elim; [|done].
    cbn [no_styles labels] in Hacc. by rewrite lookup_empty in Hacc.
  - intros (-> & a & Hin & Hl). by eapply lenient_labels_intro.
Qed.

(** X10: a node has a label after the loop of [_plot_graph] exactly when one
    of its entries qualifies (any node of an ego graph, a node with more
    than 150000 stars otherwise), and the label is then the shortened name of
    the node. *)
Theorem node_styles_labels (b : bool) (items : list (string * Attrs))
  (s : NodeStyles) (n lab : string) :
  node_styles b items = Return s →
  labels s !! n = Some lab
  ↔ lab = node_label n ∧ ∃ a, (n, a) ∈ items ∧ labelled b a.
Proof. apply styles_labels_lookup. Qed.

Lemma node_styles_labels_witness :
  ∃ s, node_styles true [("o/A", record_attrs (mk_repo "o/A" ["x"]))] = Return s
       ∧ (labels s !! "o/A" = Some "A"
          ↔ "A" = node_label "o/A"
            ∧ ∃ a, ("o/A", a) ∈ [("o/A", record_attrs (mk_repo "o/A" ["x"]))]
                   ∧ labelled true a).
Proof.
  eexists. split; [reflexivity|].
  exact (node_styles_labels true [("o/A", record_attrs (mk_repo "o/A" ["x"]))]
           _ "o/A" "A" eq_refl).
Defined.

(** ** [_plot_graph] on the graphs of the two builders

    [G.nodes] enumerates the node table in insertion order; the properties
    below hold for any enumeration [view] of the table. *)

Lemma style_node_no_attrs (b : bool) (acc : NodeStyles) (item : string * Attrs) :
  item.2 = no_attrs → style_node b acc item = Raise (KeyError "activity").
Proof. intros Hitem. unfold style_node. by rewrite Hitem. Qed.

Lemma node_styles_raise (items : list (string * Attrs)) (acc : NodeStyles) :
  Forall (fun item => styleable true item.2 ∨ item.2 = no_attrs) items →
  Exists (fun item => item.2 = no_attrs) items →
  foldlM (style_node true) acc items = Raise (KeyError "activity").
Proof.
  intros Hall. revert acc.
  induction Hall as [|item items Hitem _ IH]; intros acc Hex;
    [by apply Exists_nil in Hex|].
  cbn [foldlM]. destruct Hitem as [Hok|Hno].
  - rewrite style_node_lenient_eq by done.
    apply Exists_cons in Hex as [Hno|Hex]; [|by apply IH].
    destruct Hok as ([a Ha] & _). by rewrite Hno in Ha.
  - by rewrite style_node_no_attrs.
Qed.

Lemma ego_unfinalized_no_attrs (self : GitHubGraphVisualizer)
  (set_order : nat → gset string → list string) (start_repo : string)
  (G : Graph) (seen : gset string) :
  ego_traversal set_order self start_repo = Return (G, seen) →
  ∀ n a, nodes G !! n = Some a → level a = None → a = no_attrs.
Proof.
  apply (ego_graph_ind self
           (fun G => ∀ n a, nodes G !! n = Some a → level a = None → a = no_attrs)).
  - intros G0 n repo lvl HG0 _ _ m a. rewrite add_node_nodes.
    case_decide; [|apply HG0]. by intros [= <-].
  - intros G0 u v HG0 _ m a. rewrite add_edge_nodes.
    destruct (nodes G0 !! m) as [a0|] eqn:Hm.
    + intros [= <-]. by apply (HG0 m).
    + case_decide; [|done]. by intros [= <-].
  - intros n a. by rewrite empty_graph_nodes.
Qed.

Section PlotOfBuilders.

Variable view : gmap string Attrs → list (string * Attrs).
Hypothesis view_perm : ∀ m, view m ≡ₚ map_to_list m.

Lemma elem_of_view (m : gmap string Attrs) (n : string) (a : Attrs) :
  (n, a) ∈ view m ↔ m !! n = Some a.
Proof. rewrite view_perm. apply elem_of_map_to_list. Qed.

Lemma length_view (m : gmap string Attrs) : length (view m) = size m.
Proof. rewrite view_perm. apply length_map_to_list. Qed.

(** X11: [plot_full_graph] never fails in the style loop: on the graph of
    GraphBuilder the strict loop of [_plot_graph] returns, with one size per
    key of the repository map, and a node is labelled exactly when the
    record kept for its name has more than 150000 stars. *)
Theorem full_graph_styles (data : list Repo) :
  ∃ G s, _build_full_graph (__init__ data) = Return G
    ∧ node_styles false (view (nodes G)) = Return s
    ∧ length (node_sizes s) = size (repo_map (__init__ data))
    ∧ ∀ n, labels s !! n
           = (repo ← repo_map (__init__ data) !! n;
              if bool_decide (150000 < star_count repo)%Z
              then Some (node_label n) else None).
Proof.
  destruct (full_graph_state_nodes data) as (st & Hst & Hnodes).
  assert (Forall (fun item : string * Attrs => styleable false item.2)
            (view (nodes (fs_G st)))) as Hall.
  { apply Forall_forall. intros [n a] Hin%elem_of_view.
    rewrite Hnodes, lookup_fmap in Hin.
    destruct (repo_map (__init__ data) !! n) as [r|]; [|done].
    injection Hin as <-. split_and!; by eexists. }
  pose proof (node_styles_from false _ no_styles Hall) as Hs.
  exists (fs_G st), (node_styles_lenient false (view (nodes (fs_G st)))).
  split; [unfold _build_full_graph; by rewrite Hst|].
  split; [exact Hs|]. split.
  - destruct (lenient_styles_shape false (view (nodes (fs_G st)))) as [-> _].
    by rewrite length_view, Hnodes, map_size_fmap.
  - intros n.
    destruct (labels _ !! n) as [lab|] eqn:Hlab.
    + apply (styles_labels_lookup false _ _ n lab Hs) in Hlab
        as (-> & a & Hin%elem_of_view & Hl).
      rewrite Hnodes, lookup_fmap in Hin.
      destruct (repo_map (__init__ data) !! n) as [r|]; [|done].
      injection Hin as <-. simpl.
      destruct Hl as [?|(s & [= <-] & Hs')]; [done|].
      by rewrite bool_decide_eq_true_2.
    + destruct (repo_map (__init__ data) !! n) as [r|] eqn:Hr; [|done]. simpl.
      case_bool_decide as Hstar; [|done].
      assert (labels (node_styles_lenient false (view (nodes (fs_G st)))) !! n
              = Some (node_label n)) as Hsome; [|congruence].
      apply (styles_labels_lookup false _ _ n _ Hs). split; [done|].
      exists (record_attrs r). split.
      * apply elem_of_view. by rewrite Hnodes, lookup_fmap, Hr.
      * right. by exists (star_count r).
Qed.

(** X12: [plot_4level_graph] runs the strict loop of [_plot_graph] on the
    graph of EgoNetworkBuilder. When every node of the graph was finalized
    the loop returns and labels every node; when the traversal left a node
    that was reached but never finalized, the loop raises
    [KeyError "activity"], whatever the order of [G.nodes]. *)
Theorem ego_graph_styles (data : list Repo)
  (set_order : nat → gset string → list string) (start_repo : string) :
  (∀ L X, set_order L X ≡ₚ elements X) →
  is_Some (repo_map (__init__ data) !! start_repo) →
  ∃ G, (_build_4level_graph set_order start_repo (__init__ data)).2 = Return G
    ∧ ((∀ n a, nodes G !! n = Some a → is_Some (level a)) →
       ∃ s, node_styles true (view (nodes G)) = Return s
            ∧ ∀ n, labels s !! n = (nodes G !! n ≫= fun _ => Some (node_label n)))
    ∧ ((∃ n a, nodes G !! n = Some a ∧ level a = None) →
       node_styles true (view (nodes G)) = Raise (KeyError "activity")).
Proof.
  intros Hperm Hseed.
  destruct (ego_traversal_inv (__init__ data) set_order
              (topic_lists_known_init data) Hperm start_repo Hseed)
    as (G & seen & HG & Hinv).
  exists G. unfold _build_4level_graph. destruct Hseed as [r ->].
  cbn [snd]. rewrite HG. split; [done|].
  pose proof (ego_unfinalized_no_attrs _ _ _ _ _ HG) as Hno.
  assert (∀ n a, nodes G !! n = Some a → is_Some (level a) → styleable true a)
    as Hfin.
  { intros n a Ha Hl. destruct (gi_attrs _ _ _ Hinv n a Ha Hl) as (? & ? & ?).
    by split_and!. }
  split.
  - intros Hall.
    assert (Forall (fun item : string * Attrs => styleable true item.2)
              (view (nodes G))) as Hok.
    { apply Forall_forall. intros [n a] Hin%elem_of_view. eauto. }
    pose proof (node_styles_from true _ no_styles Hok) as Hs.
    eexists. split; [exact Hs|]. intros n.
    destruct (labels _ !! n) as [lab|] eqn:Hlab.
    + apply (styles_labels_lookup true _ _ n lab Hs) in Hlab
        as (-> & a & Hin%elem_of_view & _).
      by rewrite Hin.
    + destruct (nodes G !! n) as [a|] eqn:Ha; [|done]. simpl.
      rewrite <- Hlab.
      apply (styles_labels_lookup true _ _ n _ Hs). split; [done|].
      exists a. split; [by apply elem_of_view|by left].
  - intros (n & a & Ha & Hl). apply node_styles_raise.
    + apply Forall_forall. intros [m b] Hin%elem_of_view. simpl.
      destruct (level b) as [l|] eqn:Hb; [left|right; by eapply Hno].
      eapply Hfin; [done|]. by rewrite Hb.
    + apply Exists_exists. exists (n, a).
      split; [by apply elem_of_view|by eapply Hno].
Qed.

End PlotOfBuilders.

Lemma full_graph_styles_witness :
  (∀ m : gmap string Attrs, map_to_list m ≡ₚ map_to_list m)
  ∧ ∃ G s, _build_full_graph (__init__ abc_data) = Return G
      ∧ node_styles false (map_to_list (nodes G)) = Return s
      ∧ length (node_sizes s) = size (repo_map (__init__ abc_data))
      ∧ ∀ n, labels s !! n
             = (repo ← repo_map (__init__ abc_data) !! n;
                if bool_decide (150000 < star_count repo)%Z
                then Some (node_label n) else None).
Proof.
  assert (∀ m : gmap string Attrs, map_to_list m ≡ₚ map_to_list m) as Hview
    by (intros m; reflexivity).
  split; [exact Hview|].
  exact (full_graph_styles map_to_list Hview abc_data).
Defined.

Lemma ego_graph_styles_witness :
  (∀ m : gmap string Attrs, map_to_list m ≡ₚ map_to_list m)
  ∧ (∀ L X, elements_order L X ≡ₚ elements X)
  ∧ is_Some (repo_map (__init__ chain_data) !! "o/r0")
  ∧ ∃ G, (_build_4level_graph elements_order "o/r0" (__init__ chain_data)).2 = Return G
      ∧ ((∀ n a, nodes G !! n = Some a → is_Some (level a)) →
         ∃ s, node_styles true (map_to_list (nodes G)) = Return s
              ∧ ∀ n, labels s !! n = (nodes G !! n ≫= fun _ => Some (node_label n)))
      ∧ ((∃ n a, nodes G !! n = Some a ∧ level a = None) →
         node_styles true (map_to_list (nodes G)) = Raise (KeyError "activity")).
Proof.
  assert (∀ m : gmap string Attrs, map_to_list m ≡ₚ map_to_list m) as Hview
    by (intros m; reflexivity).
  assert (∀ L X, elements_order L X ≡ₚ elements X) as Hperm
    by (intros L X; reflexivity).
  assert (is_Some (repo_map (__init__ chain_data) !! "o/r0")) as Hseed
    by compute_done.
  split; [exact Hview|]. split; [exact Hperm|]. split; [exact Hseed|].
  exact (ego_graph_styles map_to_list Hview chain_data elements_order "o/r0"
           Hperm Hseed).
Defined.

(** ** [_plot_graph]: the label of a node *)

Lemma split_on_nonempty (sep : Ascii.ascii) (s : string) : split_on sep s ≠ [].
Proof.
  induction s as [|c s IH]; simpl; [done|].
  case_decide; [done|]. by destruct (split_on sep s).
Qed.

Lemma split_on_pieces (sep : Ascii.ascii) (s : string) :
  Forall (fun piece => ¬ has_char sep piece) (split_on sep s).
Proof.
  induction s as [|c s IH]; simpl.
  - constructor; [|constructor]. by intros [].
  - case_decide as Hc.
    + constructor; [by intros []|done].
    + destruct (split_on sep s) as [|h t].
      * constructor; [|constructor]. simpl. intuition.
      * apply Forall_cons in IH as [Hh Ht]. constructor; [|done].
        simpl. intuition.
Qed.

Lemma split_on_app (sep : Ascii.ascii) (a b : string) :
  split_on sep (a +:+ String sep b) = split_on sep a ++ split_on sep b.
Proof.
  induction a as [|c a IH]; simpl.
  - by rewrite decide_True.
  - case_decide; [by rewrite IH|].
    rewrite IH. pose proof (split_on_nonempty sep a).
    by destruct (split_on sep a).
Qed.

Lemma split_on_whole (sep : Ascii.ascii) (s : string) :
  ¬ has_char sep s → split_on sep s = [s].
Proof.
  induction s as [|c s IH]; simpl; [done|]. intros Hs.
  rewrite decide_False by intuition. rewrite IH by intuition. done.
Qed.

Lemma str_take_length (n : nat) (s : string) : String.length (str_take n s) ≤ n.
Proof.
  revert s. induction n as [|n IH]; intros [|c s]; simpl; try lia.
  specialize (IH s). lia.
Qed.

Lemma str_take_has_char (c : Ascii.ascii) (n : nat) (s : string) :
  has_char c (str_take n s) → has_char c s.
Proof.
  revert s. induction n as [|n IH]; intros [|d s]; simpl; try done.
  intros [?|?]; [by left|right; by apply IH].
Qed.

Lemma str_take_short (n : nat) (s : string) :
  String.length s ≤ n → str_take n s = s.
Proof.
  revert s. induction n as [|n IH]; intros [|c s]; simpl; try done; [lia|].
  intros Hs. rewrite IH; [done|lia].
Qed.

(** X13: the label [node.split("/")[-1][:12]] has at most 12 characters and
    no "/"; for a name [owner/name] whose last part has no "/" it is the
    first 12 characters of [name] (the whole of it when it has at most 12),
    and a name without "/" is shortened as a whole. *)
Theorem node_label_spec (node : string) :
  String.length (node_label node) ≤ 12
  ∧ ¬ has_char "/" (node_label node)
  ∧ (∀ owner name, node = owner +:+ "/" +:+ name → ¬ has_char "/" name →
       node_label node = str_take 12 name
       ∧ (String.length name ≤ 12 → node_label node = name))
  ∧ (¬ has_char "/" node → node_label node = str_take 12 node).
Proof.
  unfold node_label. split_and!.
  - apply str_take_length.
  - intros Hc%str_take_has_char.
    destruct (last (split_on "/" node)) as [x|] eqn:Hx; [|done].
    apply last_Some_elem_of in Hx.
    pose proof (split_on_pieces "/" node) as Hall.
    rewrite Forall_forall in Hall. by apply (Hall x).
  - intros owner name -> Hname.
    change (owner +:+ "/" +:+ name) with (owner +:+ String "/" name).
    rewrite split_on_app, (split_on_whole _ name) by done.
    rewrite last_snoc. simpl. split; [done|]. apply str_take_short.
  - intros Hnode. by rewrite split_on_whole.
Qed.

(** ** [retry_decorator] *)

Section RetryProperties.

Context {A : Type}.
Variable max_retries : nat.
Variable base_delay : Z.
Variable sleep : Z → option exn.
Variable func : nat → Result A.

Lemma delays_S (k : nat) :
  delays base_delay (S k) = delays base_delay k ++ [delay base_delay (S k)].
Proof. unfold delays. by rewrite seq_S, fmap_app. Qed.

Lemma wrapper_loop_failures (k fuel retries : nat) (log : list Z) :
  (∀ i, retries ≤ i < retries + k → ∃ e, func i = Raise e) →
  (∀ i, retries < i ≤ retries + k → sleep (delay base_delay i) = None) →
  retries + k < max_retries → k < fuel →
  wrapper_loop max_retries base_delay sleep func fuel retries log
  = wrapper_loop max_retries base_delay sleep func (fuel - k) (retries + k)
      (log ++ ((fun i => delay base_delay (S i)) <$> seq retries k)).
Proof.
  revert fuel retries log.
  induction k as [|k IH]; intros fuel retries log Hfail Hsleep Hlt Hfuel.
  - by rewrite Nat.sub_0_r, Nat.add_0_r, app_nil_r.
  - destruct fuel as [|fuel]; [lia|]. cbn [wrapper_loop].
    rewrite decide_True by lia.
    destruct (Hfail retries) as [e ->]; [lia|].
    rewrite Hsleep by lia. rewrite decide_False by lia.
    rewrite IH;
      [|intros i Hi; apply Hfail; lia|intros i Hi; apply Hsleep; lia|lia|lia].
    cbn [seq fmap list_fmap]. rewrite <- app_assoc.
    by replace (S retries + k) with (retries + S k) by lia.
Qed.

Lemma wrapper_loop_run (fuel retries : nat) :
  retries ≤ max_retries → max_retries - retries < fuel →
  ∃ run, wrapper_loop max_retries base_delay sleep func fuel retries
           (delays base_delay retries) = Some run
         ∧ run_from max_retries base_delay sleep func retries run.
Proof.
  revert retries.
  induction fuel as [|fuel IH]; intros retries Hle Hfuel; [lia|].
  cbn [wrapper_loop]. case_decide as Hlt.
  - destruct (func retries) as [e|a] eqn:Hfunc.
    + destruct (sleep (delay base_delay (S retries))) as [e'|] eqn:Hsleep.
      * eexists. split; [done|]. unfold run_from. cbn [calls slept outcome].
        replace (S retries - 1) with retries by lia.
        split_and!; [lia|lia|intros; lia|lia|].
        exists e. split; [done|]. by right.
      * case_decide as Hlast.
        -- eexists. split; [done|]. unfold run_from. cbn [calls slept outcome].
           replace (S retries - 1) with retries by lia.
           split_and!; [lia|lia|intros; lia|lia|].
           exists e. split; [done|]. left. by rewrite delays_S.
        -- rewrite <- delays_S.
           destruct (IH (S retries)) as (run & -> & Hcalls & Hbefore & Hout);
             [lia|lia|].
           exists run. split; [done|]. unfold run_from.
           split_and!; [lia|lia| |].
           ++ intros i Hi Hlti. destruct (decide (i = retries)) as [->|Hne].
              ** split; [by eexists|done].
              ** apply Hbefore; lia.
           ++ destruct (outcome run) as [e1|[a|]].
              ** destruct Hout as [? Hout]. split; [lia|done].
              ** destruct Hout as (? & ? & ?). split_and!; [lia|done|done].
              ** lia.
    + eexists. split; [done|]. unfold run_from. cbn [calls slept outcome].
      replace (S retries - 1) with retries by lia.
      split_and!; [lia|lia|intros; lia|lia|done|done].
  - eexists. split; [done|]. unfold run_from. cbn [calls slept outcome].
    split_and!; [lia|lia|intros; lia|done|lia|done].
Qed.

(** X14: when the first [k] calls fail, the sleeps that follow them complete
    and the next call returns [a], with [k] below [max_retries], the wrapper
    makes [k + 1] calls and returns [a] after sleeping [base_delay * 2^1],
    ..., [base_delay * 2^k]: the first delay is twice [base_delay], and a
    call that succeeds at once does not sleep. *)
Theorem retry_success (k : nat) (a : A) :
  k < max_retries →
  (∀ i, i < k → ∃ e, func i = Raise e) →
  (∀ i, 1 ≤ i ≤ k → sleep (delay base_delay i) = None) →
  func k = Return a →
  wrapper max_retries base_delay sleep func
  = Some {| calls := S k; slept := delays base_delay k;
            outcome := Return (Some a) |}.
Proof.
  intros Hk Hfail Hsleep Ha. unfold wrapper, delays.
  rewrite (wrapper_loop_failures k);
    [|intros i Hi; apply Hfail; lia|intros i Hi; apply Hsleep; lia|lia|lia].
  destruct (S max_retries - k) as [|fuel] eqn:Hfuel; [lia|].
  cbn [wrapper_loop]. rewrite decide_True by (simpl; lia).
  simpl. by rewrite Ha.
Qed.



End RetryProperties.

Lemma time_sleep_delay (i : nat) : time_sleep (delay BASE_DELAY i) = None.
Proof.
  unfold time_sleep, delay, BASE_DELAY. rewrite decide_False; [done|].
  pose proof (Z.pow_nonneg 2 (Z.of_nat i)). lia.
Qed.

Lemma retry_success_witness :
  wrapper MAX_RETRIES BASE_DELAY time_sleep
    (fun i => if decide (i < 2) then Raise (KeyError "x") else Return i)
  = Some {| calls := 3; slept := [4; 8]%Z; outcome := Return (Some 2) |}.
Proof.
  apply (retry_success MAX_RETRIES BASE_DELAY time_sleep
           (fun i => if decide (i < 2) then Raise (KeyError "x") else Return i)
           2 2).
  - unfold MAX_RETRIES. lia.
  - intros i Hi. exists (KeyError "x"). by rewrite decide_True.
  - intros i _. apply time_sleep_delay.
  - reflexivity.
Defined.


(** ** [get_top_star_repos] *)

Section TopStarReposProperties.

Context {Item Entry : Type}.
Variable entry_of : Item → Entry.

Lemma page_loop_result (items : nat → list Item) (pages asked : list nat)
  (repos : list Entry) :
  ∃ r, (page_loop entry_of (fun p => Return (items p)) pages asked repos).2 = Return r
       ∧ take TOP_N r
         = take TOP_N (repos ++ (entry_of <$> pages_before_empty items pages)).
Proof.
  revert asked repos. induction pages as [|p pages IH]; intros asked repos.
  - exists repos. by rewrite app_nil_r.
  - cbn [page_loop pages_before_empty].
    destruct (items p) as [|it its] eqn:Hp.
    + exists repos. by rewrite app_nil_r.
    + case_decide as Hfull.
      * eexists. split; [done|].
        rewrite fmap_app, app_assoc. symmetry. by apply take_app_le.
      * destruct (IH (asked ++ [p]) (repos ++ (entry_of <$> it :: its)))
          as (r & -> & Hr).
        exists r. split; [done|]. by rewrite Hr, fmap_app, app_assoc.
Qed.

(** X17: when every request succeeds, [get_top_star_repos] returns the first
    [TOP_N] = 500 entries of the pages 1 to 5 taken in order up to the first
    empty page: stopping early once 500 entries are gathered does not change
    the result, and the result never has more than 500 entries. *)
Theorem top_repos_result (items : nat → list Item) :
  ∃ r, (get_top_star_repos entry_of (fun p => Return (items p))).2 = Return r
       ∧ r = take TOP_N (entry_of <$> pages_before_empty items (seq 1 5))
       ∧ length r ≤ TOP_N.
Proof.
  unfold get_top_star_repos.
  change ((TOP_N + PER_PAGE - 1) / PER_PAGE) with 5. cbn [fst snd].
  destruct (page_loop_result items (seq 1 5) [] []) as (r & -> & Hr).
  eexists. split; [done|]. split; [exact Hr|].
  rewrite length_take. lia.
Qed.

Variable fetch : nat → Result (list Item).

Lemma page_loop_requests (n a : nat) (asked : list nat) (repos : list Entry) :
  1 ≤ n →
  ∃ j, 1 ≤ j ≤ n
       ∧ (page_loop entry_of fetch (seq a n) asked repos).1 = asked ++ seq a j
       ∧ (∀ p, a ≤ p < a + j - 1 → ∃ its, fetch p = Return its ∧ its ≠ [])
       ∧ ∀ e, (page_loop entry_of fetch (seq a n) asked repos).2 = Raise e
              ↔ fetch (a + j - 1) = Raise e.
Proof.
  revert a asked repos. induction n as [|n IH]; intros a asked repos Hn; [lia|].
  cbn [seq page_loop].
  assert (a + 1 - 1 = a) as Ha by lia.
  destruct (fetch a) as [e0|[|it its]] eqn:Hfetch.
  - exists 1. rewrite Ha, Hfetch. cbn [fst snd].
      split_and!; [lia|lia|done|intros; lia|intros e; split; intros ?; by simplify_eq].
  - exists 1. rewrite Ha, Hfetch. cbn [fst snd].
      split_and!; [lia|lia|done|intros; lia|intros e; split; intros ?; by simplify_eq].
  - case_decide as Hfull.
    + exists 1. rewrite Ha, Hfetch. cbn [fst snd].
      split_and!; [lia|lia|done|intros; lia|intros e; split; intros ?; by simplify_eq].
    + destruct n as [|n].
      * exists 1. rewrite Ha, Hfetch. cbn [page_loop fst snd].
        split_and!; [lia|lia|done|intros; lia|intros e; split; intros ?; by simplify_eq].
      * destruct (IH (S a) (asked ++ [a]) (repos ++ (entry_of <$> it :: its)))
          as (j & Hj & Hasked & Hbefore & Hraise); [lia|].
        exists (S j). split_and!; [lia|lia| | |].
        -- rewrite Hasked. cbn [seq]. by rewrite <- app_assoc.
        -- intros p Hp. destruct (decide (p = a)) as [->|Hpa].
           ++ rewrite Hfetch. by eexists.
           ++ apply Hbefore. lia.
        -- intros e. rewrite Hraise.
           by replace (S a + j - 1) with (a + S j - 1) by lia.
Qed.

(** One run of the body asks for the pages 1, 2, ..., j in order for some j
    between 1 and 5, every page before the last one asked held items, and
    the run raises exactly when its last request raised. *)
Lemma top_repos_body_requests :
  ∃ j, 1 ≤ j ≤ 5
       ∧ (get_top_star_repos entry_of fetch).1 = seq 1 j
       ∧ (∀ p, 1 ≤ p < j → ∃ its, fetch p = Return its ∧ its ≠ [])
       ∧ (∀ r, (get_top_star_repos entry_of fetch).2 = Return r → length r ≤ TOP_N)
       ∧ ∀ e, (get_top_star_repos entry_of fetch).2 = Raise e ↔ fetch j = Raise e.
Proof.
  unfold get_top_star_repos.
  change ((TOP_N + PER_PAGE - 1) / PER_PAGE) with 5. cbn [fst snd].
  destruct (page_loop_requests 5 1 [] []) as (j & Hj & Hasked & Hbefore & Hraise);
    [lia|].
  exists j. split_and!; [lia|lia|done| | |].
  - intros p Hp. apply Hbefore. lia.
  - intros r. destruct (page_loop _ _ _ _ _).2 as [|l]; [done|].
    intros [= <-]. rewrite length_take. lia.
  - intros e. assert (1 + j - 1 = j) as Hj1 by lia.
    rewrite Hj1 in Hraise. rewrite <- Hraise.
    by destruct (page_loop _ _ _ _ _).2.
Qed.

End TopStarReposProperties.

(** X18: the decorated [get_top_star_repos], whatever the requests and
    [time.sleep] do. It runs the body between 1 and 5 times. Every run asks
    for the pages 1, 2, ..., j in order for some j between 1 and 5 and every
    page before the last one asked held items; a run that is followed by
    another one ended on a request that raised, so a retry starts again
    from page 1. A returned value is never [None]: it is the list of the
    last run alone, of at most 500 entries, and what the failed runs had
    gathered is lost. When the call raises, the last request of the last run
    raised, and the exception is that one after 5 runs, or the one raised
    by [time.sleep]. *)
Theorem top_repos_retried {Item Entry : Type} (entry_of : Item → Entry)
  (sleep : Z → option exn) (fetch : nat → nat → Result (list Item)) :
  ∃ run,
    get_top_star_repos_retried entry_of sleep fetch = Some run
    ∧ 1 ≤ calls run ≤ 5
    ∧ (∀ i, i < calls run →
         ∃ j, 1 ≤ j ≤ 5
              ∧ (get_top_star_repos entry_of (fetch i)).1 = seq 1 j
              ∧ (∀ p, 1 ≤ p < j → ∃ its, fetch i p = Return its ∧ its ≠ [])
              ∧ (S i < calls run → ∃ e, fetch i j = Raise e))
    ∧ (∀ r, outcome run = Return r →
         ∃ l, r = Some l
              ∧ (get_top_star_repos entry_of (fetch (calls run - 1))).2 = Return l
              ∧ length l ≤ TOP_N)
    ∧ ∀ e, outcome run = Raise e →
        ∃ j e0, 1 ≤ j ≤ 5
                ∧ (get_top_star_repos entry_of (fetch (calls run - 1))).1 = seq 1 j
                ∧ fetch (calls run - 1) j = Raise e0
                ∧ ((e = e0 ∧ calls run = 5)
                   ∨ sleep (delay BASE_DELAY (calls run)) = Some e).
Proof.
  unfold get_top_star_repos_retried, wrapper.
  destruct (wrapper_loop_run MAX_RETRIES BASE_DELAY sleep
              (fun attempt => (get_top_star_repos entry_of (fetch attempt)).2)
              (S MAX_RETRIES) 0)
    as (run & Hrun & Hcalls & Hbefore & Hout); [lia|unfold MAX_RETRIES; lia|].
  exists run. split; [exact Hrun|]. unfold MAX_RETRIES in Hcalls.
  assert (1 ≤ calls run) as Hpos.
  { destruct (outcome run) as [e|[a|]]; [lia|lia|].
    destruct Hout as (_ & Hmax & _). discriminate Hmax. }
  split; [lia|]. split; [|split].
  - intros i Hi.
    destruct (top_repos_body_requests entry_of (fetch i))
      as (j & Hj & Hasked & Hitems & _ & Hraise).
    exists j. split_and!; [lia|lia|done|done|].
    intros Hnext. destruct (Hbefore i) as [[e He] _]; [lia|done|].
    exists e. by apply Hraise.
  - intros r Hr. rewrite Hr in Hout. destruct r as [l|].
    + destruct Hout as (_ & Hl & _). exists l. split_and!; [done|done|].
      destruct (top_repos_body_requests entry_of (fetch (calls run - 1)))
        as (j & _ & _ & _ & Hlen & _).
      by apply Hlen.
    + destruct Hout as (_ & Hmax & _). discriminate Hmax.
  - intros e He. rewrite He in Hout.
    destruct Hout as (_ & e0 & He0 & Hcases).
    destruct (top_repos_body_requests entry_of (fetch (calls run - 1)))
      as (j & Hj & Hasked & _ & _ & Hraise).
    exists j, e0. split_and!; [lia|lia|done|by apply Hraise|].
    destruct Hcases as [(_ & Hmax & -> & _)|(Hs & _)]; [left|by right].
    split; [done|exact Hmax].
Qed.

(** ** From the crawler to the graph *)

Section CrawledScore.

Import ActivityScorer.
Local Open Scope Q_scope.


End CrawledScore.

Lemma lang_or_unknown_idem (l : option string) :
  lang_or_unknown (Some (lang_or_unknown l)) = lang_or_unknown l.
Proof.
  destruct l as [s|]; simpl; [|done].
  destruct (decide (s = "")) as [->|Hs]; simpl; [done|].
  by rewrite decide_False.
Qed.

Lemma optimized_names (raw_cache : list (string * CacheEntry)) :
  full_name <$> (load_repo <$> optimize_cache raw_cache) = raw_cache.*1.
Proof.
  unfold optimize_cache. rewrite <- !list_fmap_compose.
  by apply list_fmap_ext.
Qed.

(** X20: the records [optimize_cache] writes for a raw cache, read back by
    the visualizer, have pairwise different names, so the graph of
    GraphBuilder has exactly one node per entry of the cache, carrying the
    activity score and the star count of the entry and its language, with
    ["Unknown"] for a null or empty one. *)
Theorem optimized_cache_graph (raw_cache : list (string * CacheEntry)) :
  NoDup raw_cache.*1 →
  let data := load_repo <$> optimize_cache raw_cache in
  NoDup (full_name <$> data)
  ∧ ∃ G, _build_full_graph (__init__ data) = Return G
         ∧ size (nodes G) = length raw_cache
         ∧ ∀ name repo, (name, repo) ∈ raw_cache →
             nodes G !! name
             = Some {| activity := Some (raw_activity_score repo);
                       star := Some (raw_star_count repo);
                       lang := Some (lang_or_unknown (raw_language repo));
                       level := None |}.
Proof.
  intros Hkeys data.
  assert (NoDup (full_name <$> data)) as Hnames
    by (unfold data; by rewrite optimized_names).
  split; [exact Hnames|].
  destruct (full_graph_state_nodes data) as (st & Hst & Hnodes).
  exists (fs_G st). split; [unfold _build_full_graph; by rewrite Hst|].
  split.
  - rewrite Hnodes, map_size_fmap, repo_map_size by done.
    unfold data, optimize_cache. by rewrite !length_fmap.
  - intros name repo Hin.
    assert (load_repo (core_data name repo) ∈ data) as Hdata.
    { unfold data, optimize_cache. apply list_elem_of_fmap_2.
      by apply (list_elem_of_fmap_2 (fun item : string * CacheEntry =>
                                       core_data item.1 item.2) _ (name, repo)). }
    apply (repo_map_lookup_NoDup data _ Hnames) in Hdata.
    cbn [load_repo core_data full_name core_full_name] in Hdata.
    rewrite Hnodes, lookup_fmap, Hdata.
    rewrite <- (lang_or_unknown_idem (raw_language repo)). reflexivity.
Qed.

Lemma optimized_cache_graph_witness :
  let raw_cache :=
    [("o/A", {| raw_repo_id := 1; raw_owner := "o"; raw_repo_name := "A";
                raw_topics := None; raw_activity_score := 0;
                raw_star_count := 7; raw_language := None;
                raw_fork_count := 0 |})] in
  NoDup raw_cache.*1
  ∧ ∃ G, _build_full_graph (__init__ (load_repo <$> optimize_cache raw_cache))
         = Return G
         ∧ size (nodes G) = 1.
Proof.
  cbn zeta.
  assert (NoDup [("o/A", {| raw_repo_id := 1; raw_owner := "o"; raw_repo_name := "A";
                            raw_topics := None; raw_activity_score := 0;
                            raw_star_count := 7; raw_language := None;
                            raw_fork_count := 0 |})].*1) as Hkeys
    by (apply NoDup_singleton).
  split; [exact Hkeys|].
  destruct (optimized_cache_graph _ Hkeys) as (_ & G & HG & Hsize & _).
  exists G. split; [exact HG|exact Hsize].
Defined.

(** ** [_plot_graph]: edge widths on the graphs of the builders *)

Lemma edge_width_of_weight (w : Z) :
  (2 ≤ w)%Z →
  (Qmax (inject_Z w * (1 # 2)) (2 # 10) == inject_Z w * (1 # 2))%Q
  ∧ (1 <= Qmax (inject_Z w * (1 # 2)) (2 # 10))%Q.
Proof.
  intros Hw.
  assert (1 <= inject_Z w * (1 # 2))%Q as H1 by (unfold Qle; simpl; lia).
  split.
  - apply Q.max_l. apply (Qle_trans _ 1); [done|exact H1].
  - apply Q.max_le_iff. by left.
Qed.

(** X21: on the graph of GraphBuilder every edge is drawn with half its
    weight as width, which is at least 1: the lower bound 0.2 of
    [_plot_graph] never decides the width of an edge. *)
Theorem full_graph_edge_widths (data : list Repo) :
  ∃ G, _build_full_graph (__init__ data) = Return G
       ∧ Forall2 (fun (x : Q) (e : string * string * Z) =>
                    (x == inject_Z e.2 * (1 # 2))%Q ∧ (1 <= x)%Q)
                 (edge_widths G) (edges G).
Proof.
  destruct (full_graph_state_inv data) as (st & Hst & Hinv).
  exists (fs_G st). split; [unfold _build_full_graph; by rewrite Hst|].
  unfold edge_widths. apply Forall2_fmap_l, Forall_Forall2_diag, Forall_forall.
  intros [[u v] w] Hin. simpl. apply edge_width_of_weight.
  destruct (inv_weights _ _ Hinv u v w Hin) as (ru & rv & _ & _ & -> & Hshared).
  lia.
Qed.

(** X22: on the graph of EgoNetworkBuilder every edge is drawn with the
    width 1/2. *)
Theorem ego_graph_edge_widths (data : list Repo)
  (set_order : nat → gset string → list string) (start_repo : string) :
  (∀ L X, set_order L X ≡ₚ elements X) →
  is_Some (repo_map (__init__ data) !! start_repo) →
  ∃ G, (_build_4level_graph set_order start_repo (__init__ data)).2 = Return G
       ∧ edge_widths G = replicate (length (edges G)) (1 # 2).
Proof.
  intros Hperm Hseed.
  destruct (ego_traversal_inv (__init__ data) set_order
              (topic_lists_known_init data) Hperm start_repo Hseed)
    as (G & seen & HG & _).
  exists G. unfold _build_4level_graph. destruct Hseed as [r ->].
  cbn [snd]. rewrite HG. split; [done|].
  assert (Forall (fun e : string * string * Z => e.2 = 1%Z) (edges G)) as Hall.
  { apply (ego_graph_ind (__init__ data)
             (fun G => Forall (fun e : string * string * Z => e.2 = 1%Z) (edges G)))
      with (set_order := set_order) (start_repo := start_repo) (seen := seen);
      [| | |done].
    - intros G0 n repo lvl HG0 _ _. apply HG0.
    - intros G0 a b HG0 _. rewrite Forall_forall in HG0. apply Forall_forall.
      intros [[u v] w] [Hin|[-> _]]%elem_of_add_edge; [by apply (HG0 (u, v, w))|done].
    - constructor. }
  unfold edge_widths. induction Hall as [|e es He _ IH]; [done|].
  cbn [fmap list_fmap length replicate]. rewrite He. f_equal. apply IH.
Qed.

Lemma ego_graph_edge_widths_witness :
  (∀ L X, elements_order L X ≡ₚ elements X)
  ∧ is_Some (repo_map (__init__ chain_data) !! "o/r0")
  ∧ ∃ G, (_build_4level_graph elements_order "o/r0" (__init__ chain_data)).2 = Return G
         ∧ edge_widths G = replicate (length (edges G)) (1 # 2).
Proof.
  assert (∀ L X, elements_order L X ≡ₚ elements X) as Hperm
    by (intros L X; reflexivity).
  assert (is_Some (repo_map (__init__ chain_data) !! "o/r0")) as Hseed
    by compute_done.
  split; [exact Hperm|]. split; [exact Hseed|].
  exact (ego_graph_edge_widths chain_data elements_order "o/r0" Hperm Hseed).
Defined.

(** ** The repository map *)

(** X23: the repository map gives, for a name, the last record of the input
    that carries it, and nothing for a name no record carries. *)
Theorem repo_map_last_record (data : list Repo) (n : string) :
  repo_map (__init__ data) !! n
  = last (filter (fun repo => full_name repo = n) data).
Proof.
  cbn [__init__ repo_map].
  induction data as [|x data IH] using rev_ind; [done|].
  rewrite foldl_app, filter_app. cbn [foldl].
  rewrite lookup_insert. case_decide as Hx.
  - rewrite filter_cons_True by done. by rewrite filter_nil, last_snoc.
  - rewrite filter_cons_False by done. by rewrite filter_nil, app_nil_r.
Qed.
